(** * react-chrome-redux (selectors fork): the background-page side

    A shallow embedding of [wrap-store/wrapStore.js]: [promiseResponder],
    [wrapStoreSelectors] with its inner handlers [dispatchResponse],
    [connectState] and [patchState], and the default export [wrapStore].

    - JavaScript objects used as dictionaries are finite maps from property
      names to values.  The order in which such a map lists its keys stands
      for the property order of the object; nothing below depends on it.
    - Objects that are passed by reference (the payload of a request, the
      action built from it) live in a heap, so that writing to one of them
      would show.
    - A closure is the variables it captured: a subscribed [patchState] is a
      port with its serializer, its selectors and its [prevStates]; a
      registered listener is the options it was made from.
    - What the code does to the outside is a list of effects, in order:
      posting on a port, calling [store.dispatch], answering a request,
      logging.  The listeners of the runtime and the subscribers of the
      store are state that the functions pass along.
    - The runtime handles one event to completion before the next.  A promise
      stands for its eventual state, and what a responder does when the
      promise settles is counted to the call that started it.
    - Selectors, serializers and [port.postMessage] return without throwing;
      [store.dispatch] and a responder may throw. *)

From stdpp Require Import gmap strings list fin_maps pretty.
From Stdlib Require Import ZArith.

Open Scope string_scope.
Open Scope list_scope.

(** ** Values *)

(** The JavaScript values that occur as fields of views, actions and
    messages.  An object is known by its identity [VRef l]; its own
    properties, when they are needed, are held by a [heap].  [VError m] is an
    [Error] object whose [message] property is [m]. *)
Inductive value : Type :=
| VUndefined
| VNull
| VBool (b : bool)
| VNum (n : Z)
| VStr (s : string)
| VError (message : string)
| VRef (l : nat).

Arguments VNum n%_Z.

#[global] Instance value_eq_dec : EqDecision value.
Proof. solve_decision. Defined.

#[global] Instance value_inhabited : Inhabited value := populate VUndefined.

(** An object seen as a dictionary: its own enumerable properties. *)
Abbreviation obj := (gmap string value).

(** The objects reachable from a message, by identity. *)
Abbreviation heap := (gmap nat (gmap string value)).

(** [Object.keys(o)], in the order the map lists its keys. *)
Definition Object_keys {A} (o : gmap string A) : list string :=
  (map_to_list o).*1.

(** [a === b] on the values above. *)
Definition strict_eq (a b : value) : bool := bool_decide (a = b).

(** [!v]: the falsy values are [undefined], [null], [false], [0] and the
    empty string. *)
Definition falsy (v : value) : bool :=
  match v with
  | VUndefined | VNull | VBool false | VNum 0 | VStr "" => true
  | _ => false
  end.

(** A completion: a normal result or a thrown value. *)
Inductive completion (A : Type) : Type :=
| Normal (a : A)
| Throw (e : value).
Arguments Normal {A} a.
Arguments Throw {A} e.

(** ** The diff engine *)

(** One operation of a patch, [{op, key, value?}]. *)
Inductive op_kind : Type := OpCreate | OpUpdate | OpDelete.

Record patch_op : Type := PatchOp {
  op_name : op_kind;
  op_key : string;
  op_value : option value
}.

#[global] Instance op_kind_eq_dec : EqDecision op_kind.
Proof. solve_decision. Defined.

#[global] Instance patch_op_eq_dec : EqDecision patch_op.
Proof. solve_decision. Defined.

Module ShallowDiff.

(** Modelled from the spec: the operation, if any, that a key of [next]
    contributes (section 4.1: [create] if absent before, [update] if
    value-unequal, nothing if equal). *)
Definition diff_upsert (previous : obj) (kv : string * value) : option patch_op :=
  match previous !! kv.1 with
  | None => Some (PatchOp OpCreate kv.1 (Some kv.2))
  | Some old => if decide (old = kv.2) then None
                else Some (PatchOp OpUpdate kv.1 (Some kv.2))
  end.

(** Modelled from the spec: the operation, if any, that a key of [previous]
    contributes (section 4.1: [delete] if absent in [next]). *)
Definition diff_delete (next : obj) (kv : string * value) : option patch_op :=
  match next !! kv.1 with
  | None => Some (PatchOp OpDelete kv.1 None)
  | Some _ => None
  end.

(** Modelled from the spec: [wrap-store/shallowDiff.js] is imported by
    wrapStore.js and is not among the sources.  Section 4.1 of the
    specification: for every key present in [next] but absent or
    value-unequal in [previous] an [update] ([create] if absent before)
    carrying the new value; for every key present in [previous] but absent
    in [next] a [delete]; operations in key encounter order. *)
Definition shallowDiff (previous next : obj) : list patch_op :=
  omap (diff_upsert previous) (map_to_list next)
  ++ omap (diff_delete next) (map_to_list previous).

(** Modelled from the spec: one operation applied to a view (section 3:
    an operation describes one top-level field transition). *)
Definition applyOp (view : obj) (p : patch_op) : obj :=
  match op_name p with
  | OpCreate | OpUpdate => <[op_key p := default VUndefined (op_value p)]> view
  | OpDelete => delete (op_key p) view
  end.

(** Modelled from the spec: the proxy store that consumes patches is not
    among the sources.  A patch is applied operation by operation, in
    order (sections 3 and 8 of the specification). *)
Definition applyPatch (view : obj) (patch : list patch_op) : obj :=
  foldl applyOp view patch.

End ShallowDiff.

(** ** Messages, promises and effects *)

(** Modelled from the spec: [constants.js] is imported by wrapStore.js and is
    not among the sources.  Section 6 of the specification gives the wire
    names of the three message types; this is the type of a request. *)
Definition DISPATCH_TYPE : string := "DISPATCH".

(** Modelled from the spec: the type of a full snapshot (section 6;
    [constants.js] is not among the sources). *)
Definition STATE_TYPE : string := "STATE".

(** Modelled from the spec: the type of an incremental update (section 6;
    [constants.js] is not among the sources). *)
Definition PATCH_STATE_TYPE : string := "PATCH_STATE".

(** The payload of an outgoing message: a view, a patch, or whatever a
    serializer made of one. *)
Inductive payload : Type :=
| PView (view : obj)
| PPatch (patch : list patch_op)
| PEncoded (v : value).

(** [{type, key, payload}], posted on a port. *)
Record message : Type := Message {
  msg_type : string;
  msg_key : string;
  msg_payload : payload
}.

(** [{type, portName, payload}], received from a proxy. *)
Record request : Type := Request {
  req_type : value;
  req_portName : value;
  req_payload : value
}.

(** [{error, value}], the answer to a dispatch request. *)
Record envelope : Type := Envelope {
  res_error : value;
  res_value : value
}.

(** A promise by its eventual state; [Pending] never settles. *)
Inductive promise : Type :=
| Fulfilled (v : value)
| Rejected (reason : value)
| Pending.

(** What [store.dispatch] returns: a plain value or a promise. *)
Inductive dispatch_result : Type :=
| Plain (v : value)
| Promised (p : promise).

(** What a handler does to the outside, in the order it does it. *)
Inductive effect : Type :=
| Post (port : nat) (m : message)        (* port.postMessage(m) *)
| Dispatched (h : heap) (action : nat)   (* store.dispatch(action), with the objects at that time *)
| ConsoleError (args : list value)       (* console.error(...args) *)
| ConsoleWarn (text : string)            (* console.warn(text) *)
| Respond (r : envelope)                 (* sendResponse(r) *)
| Uncaught (e : value).                  (* a listener threw e *)

(** An argument that may or may not be a function ([typeof]). *)
Inductive js_arg (F : Type) : Type :=
| Fn (f : F)
| NotFn (v : value).
Arguments Fn {F} f.
Arguments NotFn {F} v.

Definition is_function {F} (a : js_arg F) : bool :=
  match a with Fn _ => true | NotFn _ => false end.

(** [!a]: a function is truthy. *)
Definition arg_falsy {F} (a : js_arg F) : bool :=
  match a with Fn _ => false | NotFn v => falsy v end.

(** A default parameter value [a = d]: used when [a] is [undefined]. *)
Definition with_default {F} (d : F) (a : js_arg F) : js_arg F :=
  match a with NotFn VUndefined => Fn d | _ => a end.

(** [v.message]: reading a property of [undefined] or [null] throws a
    [TypeError]; a primitive has no such property. *)
Definition get_message (h : heap) (v : value) : completion value :=
  match v with
  | VUndefined | VNull =>
      Throw (VError "Cannot read properties of undefined (reading 'message')")
  | VError m => Normal (VStr m)
  | VRef l => Normal (default VUndefined (h !! l ≫= (.!! "message")))
  | VBool _ | VNum _ | VStr _ => Normal VUndefined
  end.

(** The own enumerable properties [Object.assign] copies from a source:
    those of an object, the indexed characters of a string, none otherwise
    (the [message] of an [Error] is not enumerable). *)
Definition string_props (s : string) : obj :=
  list_to_map (imap (λ i c, (pretty i, VStr (String c ""))) (String.list_ascii_of_string s)).

Definition own_props (h : heap) (v : value) : obj :=
  match v with
  | VRef l => default ∅ (h !! l)
  | VStr s => string_props s
  | _ => ∅
  end.

(** [Object.assign(target, ...sources)], for a target that inherits from
    [Object.prototype]: only [target] is written, with the own enumerable
    properties of each source in turn, and later sources win.  Each
    property is written as [target[key] = value] writes it.  For the key
    [__proto__], on a target that has no own property of that name, this
    runs the setter [Object.prototype] has for it: the target gets no own
    property (the setter may give it another prototype; an [obj] holds own
    properties only, and does not show it). *)
Definition Object_assign (target : obj) (sources : list obj) : obj :=
  foldl (λ t s, match t !! "__proto__" with
                | Some _ => s ∪ t
                | None => delete "__proto__" s ∪ t
                end) target sources.

(** The place of a newly created object. *)
Definition fresh_loc (h : heap) : nat := fresh (dom h).

(** What a responder can do: call [send], and log. *)
Inductive reply : Type :=
| Sent (r : envelope)                    (* send(r) *)
| Logged (args : list value).            (* console.error(...args) *)

Definition reply_effect (r : reply) : effect :=
  match r with
  | Sent e => Respond e
  | Logged args => ConsoleError args
  end.

(** A function called with the result of [store.dispatch] and with
    [sendResponse]: what it does, whenever it does it, and what it returns
    or throws. *)
Definition responder : Type :=
  heap → dispatch_result → list reply * completion value.

(** [Promise.resolve(x)]: a promise is returned as it is. *)
Definition Promise_resolve (x : dispatch_result) : promise :=
  match x with
  | Plain v => Fulfilled v
  | Promised p => p
  end.

(** [promiseResponder(dispatchResult, send)].  The [then] callback runs on
    fulfilment; the [catch] callback on rejection, and when reading
    [err.message] throws there, nothing is sent. *)
Definition promiseResponder : responder := λ h dispatchResult,
  (match Promise_resolve dispatchResult with
   | Fulfilled res => [Sent (Envelope VNull res)]
   | Rejected err =>
       Logged [VStr "error dispatching result:"; err] ::
       match get_message h err with
       | Normal m => [Sent (Envelope m VNull)]
       | Throw _ => []
       end
   | Pending => []
   end, Normal VUndefined).

(** ** The serialization module *)

(** Modelled from the spec: [serialization.js] is imported by wrapStore.js
    and is not among the sources.  Section 4.2 of the specification: the
    default transform is the identity, and the wrapped send and receive
    primitives apply the transform to the payload exactly once per
    message. *)
Definition noop {A} (payload : A) : A := payload.

(** Modelled from the spec: the wrapped send primitive (section 4.2;
    [serialization.js] is not among the sources).  The serializer is applied
    to the payload of the message, once, and the message is sent. *)
Definition withSerializer {R} (serializer : payload → payload)
    (sendMessageFn : message → R) : message → R :=
  λ m, sendMessageFn (Message (msg_type m) (msg_key m) (serializer (msg_payload m))).

(** Modelled from the spec: the wrapped receive primitive (section 4.2;
    [serialization.js] is not among the sources), as wrapStore.js calls it,
    with a test that says which messages to deserialize.  The deserializer
    is applied to the payload of such a message, once, and may create
    objects; the listener gets the message with the new payload. *)
Definition deserializeListener {R} (listener : heap → request → R)
    (deserializer : heap * value → heap * value)
    (shouldDeserialize : request → bool) : heap → request → R :=
  λ h m,
    if shouldDeserialize m then
      let '(h', p) := deserializer (h, req_payload m) in
      listener h' (Request (req_type m) (req_portName m) p)
    else listener h m.

(** ** Reading a list of effects *)

(** The messages in [effects] posted on [port] under selector key [k]. *)
Definition posted_on (port : nat) (k : string) (effects : list effect) : list message :=
  omap (λ e, match e with
             | Post p m => if decide (p = port ∧ msg_key m = k) then Some m else None
             | _ => None
             end) effects.

(** The answers sent in [effects]. *)
Definition responses (effects : list effect) : list envelope :=
  omap (λ e, match e with Respond r => Some r | _ => None end) effects.

(** ** wrapStore.js *)

(** The options object [{portName, dispatchResponder, serializer,
    deserializer}]; a missing property is [undefined]. *)
Record options : Type := Options {
  portName : value;
  dispatchResponder : js_arg responder;
  serializer : js_arg (payload → payload);
  deserializer : js_arg (heap * value → heap * value)
}.

(** The selectors object: selector key to selector. *)
Abbreviation selector_map State := (gmap string (State → obj)).

Section WrapStore.

(** The type of the states of the store. *)
Context {State : Type}.

(** [shallowDiff.js] is not among the sources: what follows holds for any
    function from two views to a patch. *)
Variable shallowDiff : obj → obj → list patch_op.

(** What one call of [store.dispatch] does: the value it returns or throws,
    the objects afterwards, and the state of the store at each notification
    of its subscribers during the call. *)
Record dispatch_outcome : Type := DispatchOutcome {
  out_result : completion dispatch_result;
  out_heap : heap;
  out_notified : list State
}.

(** [store.dispatch]: from the state of the store and the action (a place
    among the objects) to what the call does. *)
Definition dispatch_fn : Type := State → heap → nat → dispatch_outcome.

(** A [patchState] closure subscribed to the store, by what it captured:
    the port, the serializer of its message poster, the selectors and
    [prevStates]. *)
Record subscription : Type := Subscription {
  sub_port : nat;
  sub_serializer : payload → payload;
  sub_selectors : selector_map State;
  sub_prevStates : gmap string obj
}.

(** The mutable part of the store: its state and its subscribers, in
    subscription order. *)
Record store : Type := Store {
  getState : State;
  listeners : list subscription
}.

(** [store.subscribe(listener)]. *)
Definition subscribe (sub : subscription) (st : store) : store :=
  Store (getState st) (listeners st ++ [sub]).

(** The function [store.subscribe] returned for the closure made for
    [port]: it takes that closure out of the subscribers. *)
Definition unsubscribe (port : nat) (st : store) : store :=
  Store (getState st) (filter (λ sub, sub_port sub ≠ port) (listeners st)).

(** The closure wrapStoreSelectors registers for messages, by what it
    captured: [dispatchResponse] behind the deserializer of payloads. *)
Inductive message_listener : Type :=
| DispatchResponse (dispatch : dispatch_fn) (portName : value)
    (dispatchResponder : js_arg responder)
    (deserializer : heap * value → heap * value).

(** The closure wrapStoreSelectors registers for connections, by what it
    captured: [connectState]. *)
Inductive connect_listener : Type :=
| ConnectState (selectors : selector_map State) (portName : value)
    (serializer : payload → payload).

(** [chrome.runtime]: the listeners of its events; the external events
    may be missing. *)
Record runtime : Type := Runtime {
  onMessage : list message_listener;
  onMessageExternal : option (list message_listener);
  onConnect : list connect_listener;
  onConnectExternal : option (list connect_listener)
}.

(** [withSerializer(serializer)((...args) => port.postMessage(...args))]. *)
Definition serializedMessagePoster (serializer : payload → payload) (port : nat)
    : message → effect :=
  withSerializer serializer (Post port).

(** Line 97: [prevStates[sKey] = selectors[sKey](state)] for every key. *)
Definition initialStates (selectors : selector_map State) (state : State) : gmap string obj :=
  foldl (λ prevStates entry, <[entry.1 := entry.2 state]> prevStates)
        ∅ (map_to_list selectors).

(** The body of the loop of [patchState] for one selector key. *)
Definition patchState_step (serializer : payload → payload) (port : nat)
    (state : State) (acc : gmap string obj * list effect)
    (entry : string * (State → obj)) : gmap string obj * list effect :=
  let sKey := entry.1 in
  let newValue := entry.2 state in
  let diff := shallowDiff (acc.1 !!! sKey) newValue in
  if (length diff =? 0)%nat then acc
  else (<[sKey := newValue]> acc.1,
        acc.2 ++ [serializedMessagePoster serializer port
                    (Message PATCH_STATE_TYPE sKey (PPatch diff))]).

(** [patchState], called by the store with the state it has then: the new
    [prevStates] and the messages posted. *)
Definition patchState (selectors : selector_map State) (serializer : payload → payload)
    (port : nat) (state : State) (prevStates : gmap string obj)
    : gmap string obj * list effect :=
  foldl (patchState_step serializer port state) (prevStates, [])
        (map_to_list selectors).

(** A subscriber called by the store. *)
Definition call_listener (state : State) (sub : subscription)
    : subscription * list effect :=
  let r := patchState (sub_selectors sub) (sub_serializer sub) (sub_port sub)
             state (sub_prevStates sub) in
  (Subscription (sub_port sub) (sub_serializer sub) (sub_selectors sub) r.1, r.2).

(** The store calls each subscriber, its state being [state]. *)
Definition notify (st : store) (state : State) : store * list effect :=
  let called := map (call_listener state) (listeners st) in
  (Store state (called.*1), concat (called.*2)).

(** The store calls its subscribers at each of [states] in turn. *)
Definition notify_all (st : store) (states : list State) : store * list effect :=
  foldl (λ acc state, let r := notify acc.1 state in (r.1, acc.2 ++ r.2))
        (st, []) states.

(** [connectState(port)], [port] being the port's identity and [name] its
    name. *)
Definition connectState (selectors : selector_map State) (portName : value)
    (serializer : payload → payload)
    (st : store) (port : nat) (name : value) : store * list effect :=
  if negb (strict_eq name portName) then (st, [])
  else
    let state := getState st in
    let prevStates := initialStates selectors state in
    (* store.subscribe(patchState); port.onDisconnect.addListener(unsubscribe) *)
    let st' := subscribe (Subscription port serializer selectors prevStates) st in
    (st', map (λ entry, serializedMessagePoster serializer port
                 (Message STATE_TYPE entry.1 (PView (prevStates !!! entry.1))))
              (map_to_list selectors)).

(** [shouldDeserialize(request)]: the test [dispatchResponse] starts with. *)
Definition shouldDeserialize (portName : value) (request : request) : bool :=
  strict_eq (req_type request) (VStr DISPATCH_TYPE)
  && strict_eq (req_portName request) portName.

(** The [try] statement of [dispatchResponse]: the store with its
    subscribers called, what was done, and [dispatchResult] with the objects
    after the call; or the error thrown while handling the store's. *)
Definition tryDispatch (dispatch : dispatch_fn) (st : store) (h : heap) (action : nat)
    : store * list effect * completion (heap * dispatch_result) :=
  let out := dispatch (getState st) h action in
  let '(st', posted) := notify_all st (out_notified out) in
  let h' := out_heap out in
  match out_result out with
  | Normal result => (st', Dispatched h action :: posted, Normal (h', result))
  | Throw e =>
      match get_message h' e with
      | Normal m =>
          (st', Dispatched h action :: posted ++ [ConsoleError [e]],
           Normal (h', Promised (Rejected m)))
      | Throw e' => (st', Dispatched h action :: posted, Throw e')
      end
  end.

(** [dispatchResponse(request, sender, sendResponse)]: the store afterwards,
    what the call did (the effects of the responder included, whenever they
    happen), and the value returned or thrown. *)
Definition dispatchResponse (dispatch : dispatch_fn) (portName : value)
    (dispatchResponder : js_arg responder)
    (st : store) (sender : value) (h : heap) (request : request)
    : store * list effect * completion value :=
  if strict_eq (req_type request) (VStr DISPATCH_TYPE)
     && strict_eq (req_portName request) portName then
    let action := fresh_loc h in
    let h1 :=
      <[action := Object_assign ∅ [own_props h (req_payload request);
                                   {["_sender" := sender]}]]> h in
    match tryDispatch dispatch st h1 action with
    | (st', effects, Throw e) => (st', effects, Throw e)
    | (st', effects, Normal (h2, dispatchResult)) =>
        match dispatchResponder with
        | Fn respond =>
            let '(sent, r) := respond h2 dispatchResult in
            (st', effects ++ map reply_effect sent,
             match r with Normal _ => Normal (VBool true) | Throw e => Throw e end)
        | NotFn _ =>
            (st', effects, Throw (VError "dispatchResponder is not a function"))
        end
    end
  else (st, [], Normal VUndefined).

(** [listeners.addListener(l)] on an event that may be missing. *)
Definition addListener {L} (l : L) (ls : option (list L)) : option (list L) :=
  (λ ls, ls ++ [l]) <$> ls.

(** [wrapStoreSelectors(store, selectors, options)], the store being given
    by its [dispatch]: the runtime afterwards, the warnings logged, and
    whether the call threw. *)
Definition wrapStoreSelectors (dispatch : dispatch_fn) (selectors : selector_map State)
    (opts : options) (rt : runtime) : runtime * list effect * completion unit :=
  let serializer := with_default noop (serializer opts) in
  let deserializer := with_default noop (deserializer opts) in
  if falsy (portName opts) then
    (rt, [], Throw (VError "portName is required in options"))
  else match serializer with
  | NotFn _ => (rt, [], Throw (VError "serializer must be a function"))
  | Fn serializer =>
  match deserializer with
  | NotFn _ => (rt, [], Throw (VError "deserializer must be a function"))
  | Fn deserializer =>
      let dispatchResponder :=
        if arg_falsy (dispatchResponder opts) then Fn promiseResponder
        else dispatchResponder opts in
      let dispatchResponse :=
        DispatchResponse dispatch (portName opts) dispatchResponder deserializer in
      let connectState := ConnectState selectors (portName opts) serializer in
      (Runtime (onMessage rt ++ [dispatchResponse])
               (addListener dispatchResponse (onMessageExternal rt))
               (onConnect rt ++ [connectState])
               (addListener connectState (onConnectExternal rt)),
       match onMessageExternal rt with
       | Some _ => []
       | None => [ConsoleWarn "runtime.onMessageExternal is not supported"]
       end
       ++ match onConnectExternal rt with
          | Some _ => []
          | None => [ConsoleWarn "runtime.onConnectExternal is not supported"]
          end,
       Normal ())
  end end.

(** ** The background page at work *)

(** The background page: the runtime with its listeners, the store, and
    the number of ports opened so far (a port is known by its rank). *)
Record hub : Type := Hub {
  hub_runtime : runtime;
  hub_store : store;
  hub_ports : nat
}.

(** What happens to the background page. *)
Inductive event : Type :=
| OnConnect (external : bool) (name : value)
    (* a proxy connects; the new port has the given name *)
| OnDisconnect (port : nat)
    (* the port's onDisconnect fires *)
| OnMessage (external : bool) (h : heap) (request : request) (sender : value)
    (* a proxy sends a request, with the objects it is made of *)
| StoreChanged (state : State).
    (* an action dispatched in the background page itself moved the store to
       [state], and the store calls its subscribers *)

(** The listeners of a connect event, internal or external. *)
Definition connect_listeners (rt : runtime) (external : bool) : list connect_listener :=
  if external then default [] (onConnectExternal rt) else onConnect rt.

(** The listeners of a message event, internal or external. *)
Definition message_listeners (rt : runtime) (external : bool) : list message_listener :=
  if external then default [] (onMessageExternal rt) else onMessage rt.

(** A connect listener called with the new port. *)
Definition call_connect (port : nat) (name : value) (acc : store * list effect)
    (l : connect_listener) : store * list effect :=
  match l with
  | ConnectState selectors portName serializer =>
      let r := connectState selectors portName serializer acc.1 port name in
      (r.1, acc.2 ++ r.2)
  end.

(** A message listener as registered: [dispatchResponse] behind the
    deserializer of payloads; an error it throws is the runtime's to log. *)
Definition call_message (sender : value) (h : heap) (request : request)
    (acc : store * list effect) (l : message_listener) : store * list effect :=
  match l with
  | DispatchResponse dispatch portName dispatchResponder deserializer =>
      let '(st, effects, r) :=
        deserializeListener
          (dispatchResponse dispatch portName dispatchResponder acc.1 sender)
          deserializer (shouldDeserialize portName) h request in
      (st, acc.2 ++ effects ++ match r with Throw e => [Uncaught e] | Normal _ => [] end)
  end.

(** One event, handled to completion. *)
Definition hub_step (hb : hub) (ev : event) : hub * list effect :=
  let rt := hub_runtime hb in
  match ev with
  | OnConnect external name =>
      let r := foldl (call_connect (hub_ports hb) name) (hub_store hb, [])
                 (connect_listeners rt external) in
      (Hub rt r.1 (S (hub_ports hb)), r.2)
  | OnDisconnect port =>
      (Hub rt (unsubscribe port (hub_store hb)) (hub_ports hb), [])
  | OnMessage external h request sender =>
      let r := foldl (call_message sender h request) (hub_store hb, [])
                 (message_listeners rt external) in
      (Hub rt r.1 (hub_ports hb), r.2)
  | StoreChanged state =>
      let r := notify (hub_store hb) state in
      (Hub rt r.1 (hub_ports hb), r.2)
  end.

(** The events one after the other. *)
Fixpoint hub_run (hb : hub) (evs : list event) : hub * list effect :=
  match evs with
  | [] => (hb, [])
  | ev :: evs' =>
      let r := hub_step hb ev in
      let r' := hub_run r.1 evs' in
      (r'.1, r.2 ++ r'.2)
  end.

(** The background page once the listeners are registered: no port yet, and
    nothing subscribed to the store. *)
Definition hub_init (rt : runtime) (state : State) : hub :=
  Hub rt (Store state []) 0.

(** One channel on its own: the [patchState] closure made for [port],
    called at each of [states] in turn; the final [prevStates] and what was
    posted at each call. *)
Fixpoint channel_run (selectors : selector_map State) (serializer : payload → payload)
    (port : nat) (prevStates : gmap string obj) (states : list State)
    : gmap string obj * list (list effect) :=
  match states with
  | [] => (prevStates, [])
  | state :: states' =>
      let r := patchState selectors serializer port state prevStates in
      let r' := channel_run selectors serializer port r.1 states' in
      (r'.1, r.2 :: r'.2)
  end.

(** The state of the store when a message was last posted on [port] under
    key [k]: [state0] when the [STATE] message was posted, then the state of
    each call that posted a patch. *)
Fixpoint last_sent_state (port : nat) (k : string) (state0 : State)
    (states : list State) (posted : list (list effect)) : State :=
  match states, posted with
  | state :: states', effects :: posted' =>
      last_sent_state port k
        (match posted_on port k effects with [] => state0 | _ => state end)
        states' posted'
  | _, _ => state0
  end.

(** The runtime before any listener is added. *)
Definition empty_runtime (external : bool) : runtime :=
  Runtime [] (if external then Some [] else None)
          [] (if external then Some [] else None).

End WrapStore.

(** The default export,
    [(store, options) => wrapStoreSelectors(store, {[DEFAULT_SELECTOR]: (state => state)}, options)].
    [DEFAULT_SELECTOR] is a constant of constants.js, which is not among the
    sources: any string. *)
Definition wrapStore (DEFAULT_SELECTOR : string) (dispatch : @dispatch_fn obj)
    (opts : options) : @runtime obj → @runtime obj * list effect * completion unit :=
  wrapStoreSelectors dispatch {[DEFAULT_SELECTOR := (λ state : obj, state)]} opts.

(** ** What the properties are stated with *)

Section Observations.

Context {State : Type}.
Variable shallowDiff : obj → obj → list patch_op.

Implicit Types (selectors : selector_map State) (prev : gmap string obj)
  (entry : string * (State → obj)) (state : State)
  (st : @store State) (sub : @subscription State)
  (ls : list (@subscription State)) (hb : @hub State) (rt : @runtime State).

(** The diff [patchState] computes for a selector. *)
Definition patch_of prev state entry : list patch_op :=
  shallowDiff (prev !!! entry.1) (entry.2 state).

(** The [PATCH_STATE] message for key [k] as it is posted. *)
Definition patch_message (serializer : payload → payload) (k : string)
    (diff : list patch_op) : message :=
  Message PATCH_STATE_TYPE k (serializer (PPatch diff)).

(** The [STATE] message for key [k] as it is posted. *)
Definition state_message (serializer : payload → payload) (k : string)
    (view : obj) : message :=
  Message STATE_TYPE k (serializer (PView view)).

(** [prevStates] after the loop body for one selector. *)
Definition step_prev prev state entry : gmap string obj :=
  match patch_of prev state entry with
  | [] => prev
  | _ => <[entry.1 := entry.2 state]> prev
  end.

(** What the loop body for one selector posts. *)
Definition step_posts (serializer : payload → payload) (k : string)
    (diff : list patch_op) : list message :=
  match diff with
  | [] => []
  | _ => [patch_message serializer k diff]
  end.

(** A [PATCH_STATE] message posted on [port] under one of [keys]. *)
Definition is_patch_on (port : nat) (keys : list string) (e : effect) : Prop :=
  ∃ m, e = Post port m ∧ msg_type m = PATCH_STATE_TYPE ∧ msg_key m ∈ keys.

(** A [PATCH_STATE] message posted by one of the subscribers [ls], under a
    key of its selectors. *)
Definition from_listener ls (e : effect) : Prop :=
  ∃ sub m, e = Post (sub_port sub) m ∧ sub ∈ ls
           ∧ msg_type m = PATCH_STATE_TYPE
           ∧ is_Some (sub_selectors sub !! msg_key m).

(** An effect that, when it is a post, is one of a subscriber of [ls]. *)
Definition posts_from ls (e : effect) : Prop :=
  match e with
  | Post _ _ => from_listener ls e
  | _ => True
  end.

(** The subscriber [sub] after the store called it at each of [states]. *)
Definition called_at (states : list State) sub : subscription :=
  foldl (λ sub state, (call_listener shallowDiff state sub).1) sub states.

(** Every subscriber of [ls'] is one of [ls], called some number of times. *)
Definition same_channels ls ls' : Prop :=
  ∀ sub', sub' ∈ ls' → ∃ sub states, sub ∈ ls ∧ sub' = called_at states sub.

(** A subscriber whose [prevStates] is that of a channel opened at some
    state and called at some states since. *)
Definition is_channel sub : Prop :=
  ∃ state0 states,
    sub_prevStates sub =
    (channel_run shallowDiff (sub_selectors sub) (sub_serializer sub) (sub_port sub)
       (initialStates (sub_selectors sub) state0) states).1.

(** The action built for a request: a new object, the incoming ones kept. *)
Definition action_of (h : heap) (request : request) (sender : value) : obj :=
  Object_assign ∅ [own_props h (req_payload request); {["_sender" := sender]}].

(** The first call of [store.dispatch] in [effects]: the objects then, and
    the action. *)
Definition first_dispatch (effects : list effect) : option (heap * nat) :=
  match effects with
  | Dispatched h action :: _ => Some (h, action)
  | _ => None
  end.

(** A property of the action of the first call of [store.dispatch]. *)
Definition dispatched_field (field : string) (effects : list effect) : option value :=
  '(h, action) ← first_dispatch effects; a ← h !! action; a !! field.

(** The port exists and no subscriber posts on it. *)
Definition released (port : nat) hb : Prop :=
  port < hub_ports hb
  ∧ ∀ sub, sub ∈ listeners (hub_store hb) → sub_port sub ≠ port.




(** The call throws: the condition of one of its three guards holds. *)
Definition rejected (opts : options) : bool :=
  falsy (portName opts)
  || negb (is_function (with_default noop (serializer opts)))
  || negb (is_function (with_default noop (deserializer opts))).

(** A runtime to which the call added a listener. *)
Definition registered rt rt' : Prop :=
  length (onMessage rt') = S (length (onMessage rt))
  ∧ length (onConnect rt') = S (length (onConnect rt)).

End Observations.

(** ** More readings of what the code does *)

(** The envelopes a responder sent. *)
Definition answers (sent : list reply) : list envelope :=
  omap (λ r, match r with Sent e => Some e | Logged _ => None end) sent.

(** The calls of [store.dispatch] in [effects]: the objects then, and the
    action. *)
Definition dispatch_calls (effects : list effect) : list (heap * nat) :=
  omap (λ e, match e with Dispatched h action => Some (h, action) | _ => None end)
       effects.

(** The errors listeners threw in [effects]. *)
Definition uncaught (effects : list effect) : list value :=
  omap (λ e, match e with Uncaught v => Some v | _ => None end) effects.

(** Whether an effect is a message posted on port [q]. *)
Definition on_port (q : nat) (e : effect) : bool :=
  match e with
  | Post p _ => bool_decide (p = q)
  | _ => false
  end.

(** [effects] without the messages posted on port [q]. *)
Definition without_port (q : nat) (effects : list effect) : list effect :=
  filter (λ e, on_port q e = false) effects.

(** ** The states the store calls its subscribers with *)

Section Notified.

Context {State : Type}.
Variable shallowDiff : obj → obj → list patch_op.

(** The states at which [store.dispatch] calls the subscribers when a
    message listener handles [request]: none when the request fails the
    test. *)
Definition listener_notified (sender : value) (h : heap) (request : request)
    (st : @store State) (l : @message_listener State) : list State :=
  match l with
  | DispatchResponse dispatch portName _ deserializer =>
      if shouldDeserialize portName request then
        let '(h', p) := deserializer (h, req_payload request) in
        let action := fresh_loc h' in
        let h1 :=
          <[action := Object_assign ∅ [own_props h' p; {["_sender" := sender]}]]> h' in
        out_notified (dispatch (getState st) h1 action)
      else []
  end.

(** The same for the listeners of a message event, one after the other. *)
Fixpoint messages_notified (sender : value) (h : heap) (request : request)
    (st : @store State) (ls : list (@message_listener State)) : list State :=
  match ls with
  | [] => []
  | l :: ls' =>
      listener_notified sender h request st l
      ++ messages_notified sender h request
           (call_message shallowDiff sender h request (st, []) l).1 ls'
  end.

(** The states at which the store calls its subscribers while the
    background page handles one event. *)
Definition step_notified (hb : @hub State) (ev : @event State) : list State :=
  match ev with
  | StoreChanged state => [state]
  | OnMessage external h request sender =>
      messages_notified sender h request (hub_store hb)
        (message_listeners (hub_runtime hb) external)
  | OnConnect _ _ | OnDisconnect _ => []
  end.

(** The states at which the store calls its subscribers while the
    background page handles [evs], in order. *)
Fixpoint hub_notified (hb : @hub State) (evs : list (@event State)) : list State :=
  match evs with
  | [] => []
  | ev :: evs' =>
      step_notified hb ev ++ hub_notified (hub_step shallowDiff hb ev).1 evs'
  end.

(** The cache of a subscriber for port [p] is that of the closure made when
    the store was at [state0] and called at [trace] since. *)
Definition cached_since (p : nat) (state0 : State) (trace : list State)
    (sub : @subscription State) : Prop :=
  sub_port sub = p →
  sub_prevStates sub =
  (channel_run shallowDiff (sub_selectors sub) (sub_serializer sub) p
     (initialStates (sub_selectors sub) state0) trace).1.

End Notified.

(** ** A small background page *)

(** A store whose [dispatch] throws [new Error(message)], whatever it is
    given. *)
Definition throwing_store {State} (message : string) (h' : heap)
    (notified : list State) : @dispatch_fn State :=
  λ _ _ _, DispatchOutcome (Throw (VError message)) h' notified.

Module Scenario.

(** The states [{a: 1, b: 2}] and [{a: 1, b: 3}]. *)
Definition state0 : obj := {[ "a" := VNum 1; "b" := VNum 2 ]}.
Definition state1 : obj := {[ "a" := VNum 1; "b" := VNum 3 ]}.

(** The selectors [(st) => ({a: st.a})] and [(st) => ({b: st.b})]. *)
Definition s1 : obj → obj := λ st, {[ "a" := st !!! "a" ]}.
Definition s2 : obj → obj := λ st, {[ "b" := st !!! "b" ]}.

Definition selectors : selector_map obj := {[ "s1" := s1; "s2" := s2 ]}.

(** The options [{portName: 'MY_APP'}]. *)
Definition opts : options :=
  Options (VStr "MY_APP") (NotFn VUndefined) (NotFn VUndefined) (NotFn VUndefined).

(** The options [{portName: '', serializer: noop, deserializer: noop}]: a
    port name that is there, and is the empty string. *)
Definition opts_empty_name : options :=
  Options (VStr "") (NotFn VUndefined) (Fn noop) (Fn noop).

(** A store that answers every action by moving to [state1] and returning
    the action. *)
Definition dispatch : @dispatch_fn obj :=
  λ _ h action, DispatchOutcome (Normal (Plain (VRef action))) h [state1].

(** The requests [{type: DISPATCH, portName: 'MY_APP', payload}] for the
    payloads [{type: 'X'}] and [{type: 'X', _sender: 'forged'}]. *)
Definition objects : heap :=
  {[ 0 := {[ "type" := VStr "X" ]};
     1 := {[ "type" := VStr "X"; "_sender" := VStr "forged" ]} ]}.
Definition request_x : request :=
  Request (VStr DISPATCH_TYPE) (VStr "MY_APP") (VRef 0).
Definition request_forged : request :=
  Request (VStr DISPATCH_TYPE) (VStr "MY_APP") (VRef 1).

(** The sender metadata of the transport. *)
Definition sender : value := VRef 9.

(** The runtime after [wrapStoreSelectors(store, selectors, opts)], and the
    background page then. *)
Definition rt : @runtime obj :=
  (wrapStoreSelectors dispatch selectors opts (empty_runtime true)).1.1.
Definition page : @hub obj := hub_init rt state0.

End Scenario.

(** ** Edge cases *)

Module Edge.

(** The options [{portName: 'MY_APP', dispatchResponder: 1}]: a responder
    that is there, and is not a function. *)
Definition opts_bad_responder : options :=
  Options (VStr "MY_APP") (NotFn (VNum 1)) (NotFn VUndefined) (NotFn VUndefined).

(** A dispatch request for another port name. *)
Definition request_other : request :=
  Request (VStr DISPATCH_TYPE) (VStr "OTHER_APP") (VRef 0).

(** The payload [JSON.parse('{"type": "X", "__proto__": {"admin": true}}')]:
    [__proto__] is a property of its own; and the request that carries
    it. *)
Definition objects_proto : heap :=
  {[ 0 := {[ "admin" := VBool true ]};
     1 := {[ "type" := VStr "X"; "__proto__" := VRef 0 ]} ]}.
Definition request_proto : request :=
  Request (VStr DISPATCH_TYPE) (VStr "MY_APP") (VRef 1).

(** The background page of [Scenario] after two ports have connected. *)
Definition two_ports : @hub obj :=
  (hub_run ShallowDiff.shallowDiff Scenario.page
     [OnConnect false (VStr "MY_APP"); OnConnect false (VStr "MY_APP")]).1.

End Edge.

(** * Properties *)

(** ** The diff engine *)

Section DiffEngine.

Import ShallowDiff.

Section diff_examples.

Let a : obj := {[ "a" := VNum 1; "b" := VNum 2; "c" := VRef 7 ]}.
Let b : obj := {[ "a" := VNum 1; "b" := VNum 3; "d" := VStr "x" ]}.

Example shallowDiff_ab :
  shallowDiff a b =
  [PatchOp OpUpdate "b" (Some (VNum 3)); PatchOp OpCreate "d" (Some (VStr "x"));
   PatchOp OpDelete "c" None].
Proof. vm_compute. reflexivity. Qed.

Example applyPatch_ab : applyPatch a (shallowDiff a b) = b.
Proof. vm_compute. reflexivity. Qed.

End diff_examples.

Lemma applyPatch_app view p q :
  applyPatch view (p ++ q) = applyPatch (applyPatch view p) q.
Proof. apply foldl_app. Qed.

Lemma omap_diff_upsert_self (a : obj) (l : list (string * value)) :
  (∀ kv, kv ∈ l → a !! kv.1 = Some kv.2) →
  omap (diff_upsert a) l = [].
Proof.
  induction l as [|kv l IH]; intros Hl; [done|].
  cbn. unfold diff_upsert at 1.
  rewrite (Hl kv) by left.
  rewrite decide_True by done.
  apply IH. intros kv' Hin. apply Hl. by right.
Qed.

Lemma omap_diff_delete_self (a : obj) (l : list (string * value)) :
  (∀ kv, kv ∈ l → a !! kv.1 = Some kv.2) →
  omap (diff_delete a) l = [].
Proof.
  induction l as [|kv l IH]; intros Hl; [done|].
  cbn. unfold diff_delete at 1.
  rewrite (Hl kv) by left.
  apply IH. intros kv' Hin. apply Hl. by right.
Qed.

Lemma shallowDiff_same (a : obj) : shallowDiff a a = [].
Proof.
  unfold shallowDiff.
  assert (H : ∀ kv, kv ∈ map_to_list a → a !! kv.1 = Some kv.2).
  { intros [k v] Hin. by apply elem_of_map_to_list in Hin. }
  by rewrite omap_diff_upsert_self, omap_diff_delete_self.
Qed.

(** The creates and updates set each listed key that differs, and touch
    nothing else. *)
Lemma upserts_lookup (a view : obj) (l : list (string * value)) (k : string) :
  NoDup l.*1 →
  (∀ v, (k, v) ∈ l →
     applyPatch view (omap (diff_upsert a) l) !! k =
     if decide (a !! k = Some v) then view !! k else Some v)
  ∧ (k ∉ l.*1 → applyPatch view (omap (diff_upsert a) l) !! k = view !! k).
Proof.
  revert view. induction l as [|[k1 v1] l IH]; intros view Hnd.
  { split; [intros v Hin; by apply elem_of_nil in Hin | done]. }
  apply NoDup_cons in Hnd as [Hk1 Hnd]. cbn.
  assert (Hhead : ∀ k', k' ≠ k1 →
    applyPatch view (from_option (λ p, [p]) [] (diff_upsert a (k1, v1))) !! k'
    = view !! k').
  { intros k' Hne. unfold diff_upsert; cbn.
    destruct (a !! k1) as [old|]; [destruct (decide (old = v1))|]; cbn;
      try done; unfold applyOp; cbn; by rewrite lookup_insert_ne. }
  assert (Hsplit : ∀ w, applyPatch w
      (match diff_upsert a (k1, v1) with Some p => p :: omap (diff_upsert a) l
       | None => omap (diff_upsert a) l end) =
      applyPatch (applyPatch w (from_option (λ p, [p]) [] (diff_upsert a (k1, v1))))
                 (omap (diff_upsert a) l)).
  { intros w. by destruct (diff_upsert a (k1, v1)). }
  rewrite Hsplit. split.
  - intros v Hin. apply elem_of_cons in Hin as [Heq|Hin].
    + inversion Heq; subst k1 v1.
      destruct (IH (applyPatch view (from_option (λ p, [p]) [] (diff_upsert a (k, v)))) Hnd)
        as [_ Hout].
      rewrite Hout by done.
      unfold diff_upsert; cbn.
      destruct (a !! k) as [old|] eqn:Ha.
      * destruct (decide (old = v)) as [->|Hne]; cbn.
        -- by rewrite decide_True.
        -- rewrite decide_False by congruence.
           unfold applyOp; cbn. by rewrite lookup_insert_eq.
      * rewrite decide_False by done.
        unfold applyOp; cbn. by rewrite lookup_insert_eq.
    + assert (k ≠ k1).
      { intros ->. apply Hk1. apply list_elem_of_fmap. by exists (k1, v). }
      destruct (IH (applyPatch view (from_option (λ p, [p]) [] (diff_upsert a (k1, v1)))) Hnd)
        as [Hin' _].
      rewrite (Hin' v Hin). by rewrite Hhead.
  - intros Hnotin. apply not_elem_of_cons in Hnotin as [Hne Hnotin].
    destruct (IH (applyPatch view (from_option (λ p, [p]) [] (diff_upsert a (k1, v1)))) Hnd)
      as [_ Hout].
    rewrite Hout by done. by apply Hhead.
Qed.

(** The deletes remove each listed key that [next] lacks, and touch
    nothing else. *)
Lemma deletes_lookup (b view : obj) (l : list (string * value)) (k : string) :
  applyPatch view (omap (diff_delete b) l) !! k =
  if decide (k ∈ l.*1 ∧ b !! k = None) then None else view !! k.
Proof.
  revert view. induction l as [|[k1 v1] l IH]; intros view.
  { cbn. rewrite decide_False; [done|]. intros [H _]. by apply elem_of_nil in H. }
  cbn. unfold diff_delete at 1; cbn.
  destruct (b !! k1) as [vb|] eqn:Hb.
  - rewrite IH. apply decide_ext. rewrite elem_of_cons.
    split; [intros [? ?]; by auto|].
    intros [[->|?] Hn]; [congruence | done].
  - cbn. rewrite IH. unfold applyOp; cbn.
    destruct (decide (k = k1)) as [->|Hne].
    + rewrite lookup_delete_eq.
      rewrite (decide_True (P := k1 ∈ k1 :: l.*1 ∧ b !! k1 = None)); [|split; [left|done]].
      by case_decide.
    + rewrite lookup_delete_ne by done. apply decide_ext.
      rewrite elem_of_cons. split; [intros [? ?]; by auto|].
      intros [[?|?] ?]; done.
Qed.

Lemma applyPatch_shallowDiff_lookup (a b : obj) (k : string) :
  applyPatch a (shallowDiff a b) !! k = b !! k.
Proof.
  unfold shallowDiff. rewrite applyPatch_app, deletes_lookup.
  destruct (upserts_lookup a a (map_to_list b) k (NoDup_fst_map_to_list b))
    as [Hin Hout].
  destruct (b !! k) as [v|] eqn:Hb.
  - rewrite decide_False by (intros [_ ?]; done).
    rewrite (Hin v) by (by apply elem_of_map_to_list).
    by case_decide.
  - case_decide as Hd; [done|].
    rewrite Hout.
    + destruct (a !! k) as [va|] eqn:Ha; [|done].
      exfalso. apply Hd. split; [|done].
      apply list_elem_of_fmap. exists (k, va). split; [done|].
      by apply elem_of_map_to_list.
    + intros Hk. apply list_elem_of_fmap in Hk as [[k' v'] [-> Hk]].
      apply elem_of_map_to_list in Hk. cbn in Hb. congruence.
Qed.

(** C2.  For all views [a] and [b]: the diff of [a] with itself is the empty
    patch, and applying the operations of [shallowDiff a b] in order to [a]
    gives a view that agrees with [b] on every top-level key. *)
Theorem shallowDiff_sound (a b : obj) :
  shallowDiff a a = [] ∧
  ∀ k : string, applyPatch a (shallowDiff a b) !! k = b !! k.
Proof.
  split; [apply shallowDiff_same|].
  intros k. apply applyPatch_shallowDiff_lookup.
Qed.

End DiffEngine.

(** ** One channel: [patchState] *)

Section Channel.

Context {State : Type}.
Variable shallowDiff : obj → obj → list patch_op.

Implicit Types (selectors : selector_map State) (prev : gmap string obj)
  (entry : string * (State → obj)) (state : State).

Lemma is_patch_on_mono port keys keys' e :
  keys ⊆ keys' → is_patch_on port keys e → is_patch_on port keys' e.
Proof. intros Hsub (m & ? & ? & ?). exists m. auto. Qed.

Lemma patchState_step_eq ser port state acc entry :
  patchState_step shallowDiff ser port state acc entry =
  (step_prev shallowDiff acc.1 state entry,
   acc.2 ++ map (Post port) (step_posts ser entry.1 (patch_of shallowDiff acc.1 state entry))).
Proof.
  unfold patchState_step, step_prev, step_posts. fold (patch_of shallowDiff acc.1 state entry).
  destruct (patch_of shallowDiff acc.1 state entry); cbn; [|done].
  rewrite app_nil_r. by destruct acc.
Qed.

Lemma step_prev_lookup_ne prev state entry k :
  k ≠ entry.1 → step_prev shallowDiff prev state entry !! k = prev !! k.
Proof.
  intros Hk. unfold step_prev. destruct (patch_of shallowDiff _ _ _); [done|].
  by rewrite lookup_insert_ne.
Qed.

Lemma step_prev_lookup prev state entry :
  step_prev shallowDiff prev state entry !! entry.1 =
  match patch_of shallowDiff prev state entry with
  | [] => prev !! entry.1
  | _ => Some (entry.2 state)
  end.
Proof.
  unfold step_prev. destruct (patch_of shallowDiff _ _ _); [done|].
  by rewrite lookup_insert_eq.
Qed.

Lemma patch_of_step_ne prev state entry entry' :
  entry'.1 ≠ entry.1 →
  patch_of shallowDiff (step_prev shallowDiff prev state entry) state entry'
  = patch_of shallowDiff prev state entry'.
Proof.
  intros Hk. unfold patch_of.
  by rewrite !lookup_total_alt, step_prev_lookup_ne.
Qed.

Lemma posted_on_app port k (e1 e2 : list effect) :
  posted_on port k (e1 ++ e2) = posted_on port k e1 ++ posted_on port k e2.
Proof. apply omap_app. Qed.

Lemma posted_on_cons_post port k p m (effects : list effect) :
  posted_on port k (Post p m :: effects) =
  (if decide (p = port ∧ msg_key m = k) then [m] else [])
  ++ posted_on port k effects.
Proof. unfold posted_on; cbn. by case_decide. Qed.

Lemma posted_on_step_posts ser port k k' diff :
  posted_on port k (map (Post port) (step_posts ser k' diff)) =
  if decide (k' = k) then step_posts ser k diff else [].
Proof.
  unfold step_posts, posted_on.
  destruct (decide (k' = k)) as [->|Hk]; destruct diff as [|p diff]; cbn; try done.
  - by rewrite decide_True.
  - rewrite decide_False; [done|]. by intros [_ ?].
Qed.

Lemma step_posts_patches ser port k diff :
  Forall (is_patch_on port [k]) (map (Post port) (step_posts ser k diff)).
Proof.
  unfold step_posts. destruct diff; cbn; [constructor|].
  repeat constructor. eexists. repeat split. cbn. by left.
Qed.

(** The loop of [patchState] over entries with distinct keys: each key is
    handled from the [prevStates] at the start of the loop. *)
Lemma patchState_fold ser port state (l : list (string * (State → obj))) prev effects :
  NoDup l.*1 →
  let r := foldl (patchState_step shallowDiff ser port state) (prev, effects) l in
  (∀ k sel, (k, sel) ∈ l →
     r.1 !! k = step_prev shallowDiff prev state (k, sel) !! k
     ∧ posted_on port k r.2 =
       posted_on port k effects ++ step_posts ser k (patch_of shallowDiff prev state (k, sel)))
  ∧ (∀ k, k ∉ l.*1 →
       r.1 !! k = prev !! k ∧ posted_on port k r.2 = posted_on port k effects)
  ∧ (∃ new, r.2 = effects ++ new ∧ Forall (is_patch_on port l.*1) new).
Proof.
  revert prev effects. induction l as [|[k1 sel1] l IH]; intros prev effects Hnd; cbn.
  { split; [|split].
    - intros k sel Hin. by apply elem_of_nil in Hin.
    - done.
    - exists []. by rewrite app_nil_r. }
  apply NoDup_cons in Hnd as [Hk1 Hnd].
  rewrite patchState_step_eq; cbn.
  specialize (IH (step_prev shallowDiff prev state (k1, sel1))
                 (effects ++ map (Post port)
                    (step_posts ser k1 (patch_of shallowDiff prev state (k1, sel1)))) Hnd).
  cbn in IH. destruct IH as (IHin & IHout & new & Hnew & Hpatches).
  split; [|split].
  - intros k sel Hin. apply elem_of_cons in Hin as [Heq|Hin].
    + inversion Heq; subst k1 sel1.
      destruct (IHout k Hk1) as [-> ->].
      split; [done|].
      rewrite posted_on_app, posted_on_step_posts. by rewrite decide_True.
    + assert (Hne : k ≠ k1).
      { intros ->. apply Hk1. apply list_elem_of_fmap. by exists (k1, sel). }
      assert (Hp : patch_of shallowDiff (step_prev shallowDiff prev state (k1, sel1)) state (k, sel)
                   = patch_of shallowDiff prev state (k, sel)).
      { apply patch_of_step_ne. exact Hne. }
      destruct (IHin k sel Hin) as [H1 H2]. rewrite H1, H2, Hp.
      split.
      * unfold step_prev at 1 3. rewrite Hp.
        destruct (patch_of shallowDiff prev state (k, sel)); cbn.
        -- apply (step_prev_lookup_ne prev state (k1, sel1)). exact Hne.
        -- by rewrite !lookup_insert_eq.
      * rewrite posted_on_app, posted_on_step_posts.
        rewrite decide_False by done. by rewrite app_nil_r.
  - intros k Hk. apply not_elem_of_cons in Hk as [Hne Hk].
    destruct (IHout k Hk) as [-> ->]. split.
    + by apply (step_prev_lookup_ne prev state (k1, sel1)).
    + rewrite posted_on_app, posted_on_step_posts.
      rewrite decide_False by done. by rewrite app_nil_r.
  - eexists. rewrite Hnew, <- app_assoc. split; [done|].
    apply Forall_app. split.
    + eapply Forall_impl; [apply step_posts_patches|].
      intros e. apply is_patch_on_mono. intros x Hx.
      apply list_elem_of_singleton in Hx as ->. by left.
    + eapply Forall_impl; [exact Hpatches|].
      intros e. apply is_patch_on_mono. intros x Hx. by right.
Qed.

(** [patchState] key by key. *)
Lemma patchState_key selectors ser port state prev k sel :
  selectors !! k = Some sel →
  let r := patchState shallowDiff selectors ser port state prev in
  r.1 !! k = step_prev shallowDiff prev state (k, sel) !! k
  ∧ posted_on port k r.2 = step_posts ser k (patch_of shallowDiff prev state (k, sel)).
Proof.
  intros Hsel r.
  destruct (patchState_fold ser port state (map_to_list selectors) prev []
              (NoDup_fst_map_to_list selectors)) as (Hin & _ & _).
  apply (Hin k sel). by apply elem_of_map_to_list.
Qed.

Lemma patchState_other_key selectors ser port state prev k :
  selectors !! k = None →
  let r := patchState shallowDiff selectors ser port state prev in
  r.1 !! k = prev !! k ∧ posted_on port k r.2 = [].
Proof.
  intros Hsel r.
  destruct (patchState_fold ser port state (map_to_list selectors) prev []
              (NoDup_fst_map_to_list selectors)) as (_ & Hout & _).
  apply (Hout k). intros Hk.
  apply list_elem_of_fmap in Hk as [[k' sel] [-> Hk]].
  apply elem_of_map_to_list in Hk. cbn in Hsel. congruence.
Qed.

Lemma patchState_patches selectors ser port state prev :
  Forall (is_patch_on port (Object_keys selectors))
         (patchState shallowDiff selectors ser port state prev).2.
Proof.
  destruct (patchState_fold ser port state (map_to_list selectors) prev []
              (NoDup_fst_map_to_list selectors)) as (_ & _ & new & Hnew & Hf).
  unfold patchState. cbn in Hnew. by rewrite Hnew.
Qed.

Lemma initialStates_fold state (l : list (string * (State → obj)))
    (prev : gmap string obj) k :
  NoDup l.*1 →
  let r := foldl (λ prevStates entry, <[entry.1 := entry.2 state]> prevStates)
                 prev l in
  (∀ sel, (k, sel) ∈ l → r !! k = Some (sel state))
  ∧ (k ∉ l.*1 → r !! k = prev !! k).
Proof.
  revert prev. induction l as [|[k1 sel1] l IH]; intros prev Hnd; cbn.
  { split; [|done]. intros sel Hin. by apply elem_of_nil in Hin. }
  apply NoDup_cons in Hnd as [Hk1 Hnd].
  destruct (IH (<[k1 := sel1 state]> prev) Hnd) as [IHin IHout].
  split.
  - intros sel Hin. apply elem_of_cons in Hin as [Heq|Hin].
    + inversion Heq; subst k1 sel1.
      rewrite (IHout Hk1). apply lookup_insert_eq.
    + by apply IHin.
  - intros Hk. apply not_elem_of_cons in Hk as [Hne Hk].
    rewrite (IHout Hk). by apply lookup_insert_ne.
Qed.

(** [prevStates] as [connectState] fills it: the view of every selector. *)
Lemma initialStates_lookup selectors state k :
  initialStates selectors state !! k = (λ sel, sel state) <$> selectors !! k.
Proof.
  destruct (initialStates_fold state (map_to_list selectors) ∅ k
              (NoDup_fst_map_to_list selectors)) as [Hin Hout].
  unfold initialStates. destruct (selectors !! k) as [sel|] eqn:Hsel; cbn.
  - apply Hin. by apply elem_of_map_to_list.
  - rewrite Hout; [done|]. intros Hk.
    apply list_elem_of_fmap in Hk as [[k' sel] [-> Hk]].
    apply elem_of_map_to_list in Hk. cbn in Hsel. congruence.
Qed.

(** C4.  When the view a registered selector gives for the new state has an
    empty diff against the cached view of the channel for that selector, the
    call of [patchState] posts no message under that selector's key on the
    channel, and leaves the cached view for that key as it was. *)
Theorem patchState_empty_diff_silent selectors ser port state prev k sel :
  selectors !! k = Some sel →
  shallowDiff (prev !!! k) (sel state) = [] →
  let r := patchState shallowDiff selectors ser port state prev in
  posted_on port k r.2 = [] ∧ r.1 !! k = prev !! k.
Proof.
  intros Hsel Hdiff r.
  destruct (patchState_key selectors ser port state prev k sel Hsel) as [Hprev Hposts].
  fold r in Hprev, Hposts. rewrite Hprev, Hposts.
  unfold step_prev, step_posts, patch_of; cbn [fst snd]. by rewrite Hdiff.
Qed.

(** The cached view of a channel for a selector is the view of the state
    at which a message was last posted for it. *)
Lemma channel_run_prev selectors ser port k sel prev state0 states :
  selectors !! k = Some sel →
  prev !! k = Some (sel state0) →
  let r := channel_run shallowDiff selectors ser port prev states in
  r.1 !! k = Some (sel (last_sent_state port k state0 states r.2)).
Proof.
  intros Hsel. revert prev state0.
  induction states as [|state states IH]; intros prev state0 Hprev; cbn; [done|].
  destruct (patchState_key selectors ser port state prev k sel Hsel) as [Hp Hposts].
  rewrite Hposts. apply IH. rewrite Hp.
  unfold step_prev, step_posts, patch_of; cbn [fst snd].
  rewrite (lookup_total_correct _ _ _ Hprev).
  destruct (shallowDiff (sel state0) (sel state)); cbn; [done|].
  apply lookup_insert_eq.
Qed.

(** C3.  On a channel opened at [state0] and notified at [states], and then
    at [state]: the cached view for a registered selector is the view last
    sent for it on the channel (the payload of the [STATE] message, or the
    view a later patch led to); the call of [patchState] for [state] posts
    the diff from that view to the new one when it is not empty, and
    nothing otherwise; and the cached view becomes the new view exactly
    when the diff is not empty. *)
Theorem patchState_diff_from_last_sent selectors ser port k sel state0 states state :
  selectors !! k = Some sel →
  let before := channel_run shallowDiff selectors ser port
                  (initialStates selectors state0) states in
  let base := sel (last_sent_state port k state0 states before.2) in
  let diff := shallowDiff base (sel state) in
  let r := patchState shallowDiff selectors ser port state before.1 in
  before.1 !! k = Some base
  ∧ posted_on port k r.2 =
    match diff with [] => [] | _ => [patch_message ser k diff] end
  ∧ r.1 !! k = Some (match diff with [] => base | _ => sel state end).
Proof.
  intros Hsel before base diff r.
  assert (Hbase : before.1 !! k = Some base).
  { apply channel_run_prev; [done|].
    rewrite initialStates_lookup, Hsel. done. }
  destruct (patchState_key selectors ser port state before.1 k sel Hsel) as [Hp Hposts].
  fold r in Hp, Hposts.
  split; [done|]. rewrite Hp, Hposts.
  unfold step_prev, step_posts, patch_of; cbn [fst snd].
  rewrite (lookup_total_correct _ _ _ Hbase). fold diff.
  destruct diff; cbn; [by split|].
  split; [done|]. apply lookup_insert_eq.
Qed.

End Channel.

(** ** The store calling its subscribers *)

Section Notify.

Context {State : Type}.
Variable shallowDiff : obj → obj → list patch_op.

Implicit Types (st : @store State) (sub : @subscription State)
  (ls : list (@subscription State)).

(** A subscriber that was called keeps its port, serializer and selectors,
    and its [prevStates] is that of the channel. *)
Lemma called_at_channel states sub :
  sub_port (called_at shallowDiff states sub) = sub_port sub
  ∧ sub_serializer (called_at shallowDiff states sub) = sub_serializer sub
  ∧ sub_selectors (called_at shallowDiff states sub) = sub_selectors sub
  ∧ sub_prevStates (called_at shallowDiff states sub) =
    (channel_run shallowDiff (sub_selectors sub) (sub_serializer sub) (sub_port sub)
       (sub_prevStates sub) states).1.
Proof.
  revert sub. induction states as [|state states IH]; intros sub; [done|].
  change (called_at shallowDiff (state :: states) sub)
    with (called_at shallowDiff states (call_listener shallowDiff state sub).1).
  destruct (IH (call_listener shallowDiff state sub).1) as (Hp & Hser & Hsel & Hprev).
  rewrite Hp, Hser, Hsel, Hprev. done.
Qed.

Lemma same_channels_channel ls ls' :
  same_channels shallowDiff ls ls' →
  ∀ sub', sub' ∈ ls' →
    ∃ sub, sub ∈ ls ∧ sub_port sub' = sub_port sub
           ∧ sub_selectors sub' = sub_selectors sub.
Proof.
  intros Hsame sub' Hsub'. destruct (Hsame sub' Hsub') as (sub & states & Hsub & ->).
  exists sub. destruct (called_at_channel states sub) as (Hp & _ & Hsel & _).
  by rewrite Hp, Hsel.
Qed.

Lemma same_channels_refl ls : same_channels shallowDiff ls ls.
Proof. intros sub Hsub. by exists sub, []. Qed.

Lemma same_channels_trans ls1 ls2 ls3 :
  same_channels shallowDiff ls1 ls2 → same_channels shallowDiff ls2 ls3 →
  same_channels shallowDiff ls1 ls3.
Proof.
  intros H12 H23 sub3 H3.
  destruct (H23 sub3 H3) as (sub2 & states2 & H2 & ->).
  destruct (H12 sub2 H2) as (sub1 & states1 & H1 & ->).
  exists sub1, (states1 ++ states2). split; [done|].
  unfold called_at. by rewrite foldl_app.
Qed.

Lemma channel_run_app selectors ser port prev (states1 states2 : list State) :
  (channel_run shallowDiff selectors ser port prev (states1 ++ states2)).1 =
  (channel_run shallowDiff selectors ser port
     (channel_run shallowDiff selectors ser port prev states1).1 states2).1.
Proof.
  revert prev. induction states1 as [|state states1 IH]; intros prev; cbn; [done|].
  apply IH.
Qed.

Lemma is_channel_called states sub :
  is_channel shallowDiff sub → is_channel shallowDiff (called_at shallowDiff states sub).
Proof.
  intros (state0 & states0 & Hprev).
  destruct (called_at_channel states sub) as (Hp & Hser & Hsel & Hprev').
  exists state0, (states0 ++ states).
  by rewrite Hp, Hser, Hsel, Hprev', Hprev, channel_run_app.
Qed.

Lemma same_channels_is_channel ls ls' :
  same_channels shallowDiff ls ls' →
  Forall (is_channel shallowDiff) ls → Forall (is_channel shallowDiff) ls'.
Proof.
  intros Hsame Hls. apply Forall_forall. intros sub' Hsub'.
  destruct (Hsame sub' Hsub') as (sub & states & Hsub & ->).
  apply is_channel_called. by apply (proj1 (Forall_forall _ _) Hls).
Qed.

Lemma from_listener_mono ls ls' e :
  same_channels shallowDiff ls ls' → from_listener ls' e → from_listener ls e.
Proof.
  intros Hsame (sub' & m & -> & Hin & Ht & Hk).
  destruct (same_channels_channel _ _ Hsame sub' Hin) as (sub & Hin' & Hp' & Hs').
  exists sub, m. rewrite Hp', <- Hs'. done.
Qed.

Lemma posts_from_mono ls ls' e :
  same_channels shallowDiff ls ls' → posts_from ls' e → posts_from ls e.
Proof.
  intros Hsame. destruct e; cbn; try done. by apply from_listener_mono.
Qed.

Lemma from_listener_posts_from ls e : from_listener ls e → posts_from ls e.
Proof. intros H. destruct H as (sub & m & -> & ?). cbn. by exists sub, m. Qed.

Lemma call_listener_effects state sub :
  Forall (from_listener [sub]) (call_listener shallowDiff state sub).2.
Proof.
  unfold call_listener; cbn.
  eapply Forall_impl; [apply patchState_patches|].
  intros e (m & -> & Ht & Hk). cbn. exists sub, m.
  split; [done|]. split; [by left|]. split; [done|].
  unfold Object_keys in Hk. apply list_elem_of_fmap in Hk as [[k sel] [-> Hk]].
  apply elem_of_map_to_list in Hk. by eexists.
Qed.

Lemma notify_channels st state :
  same_channels shallowDiff (listeners st) (listeners (notify shallowDiff st state).1)
  ∧ Forall (from_listener (listeners st)) (notify shallowDiff st state).2.
Proof.
  unfold notify; cbn. split.
  - intros sub' Hin. rewrite <- list_fmap_compose in Hin.
    apply list_elem_of_fmap in Hin as (sub & -> & Hin).
    by exists sub, [state].
  - apply Forall_concat. rewrite <- list_fmap_compose.
    apply Forall_fmap. apply Forall_forall. intros sub Hin. cbn.
    eapply Forall_impl; [apply call_listener_effects|].
    intros e. apply from_listener_mono.
    intros sub' Hsub'. apply list_elem_of_singleton in Hsub' as ->.
    by exists sub, [].
Qed.

Lemma notify_all_channels st states :
  same_channels shallowDiff (listeners st) (listeners (notify_all shallowDiff st states).1)
  ∧ Forall (from_listener (listeners st)) (notify_all shallowDiff st states).2.
Proof.
  unfold notify_all.
  assert (Hgen : ∀ st0 effects,
    same_channels shallowDiff (listeners st) (listeners st0) →
    Forall (from_listener (listeners st)) effects →
    let r := foldl (λ acc state,
                      let r := notify shallowDiff acc.1 state in (r.1, acc.2 ++ r.2))
                   (st0, effects) states in
    same_channels shallowDiff (listeners st) (listeners r.1)
    ∧ Forall (from_listener (listeners st)) r.2).
  { induction states as [|state states IH]; intros st0 effects Hsame Heff; cbn; [done|].
    destruct (notify_channels st0 state) as [Hs He].
    apply IH.
    - by eapply same_channels_trans.
    - apply Forall_app. split; [done|].
      eapply Forall_impl; [exact He|]. intros e. by apply from_listener_mono. }
  apply Hgen; [apply same_channels_refl | constructor].
Qed.

(** The store's subscribers answer no request. *)
Lemma responses_from_listener ls effects :
  Forall (from_listener ls) effects → responses effects = [].
Proof.
  induction 1 as [|e effects He _ IH]; [done|].
  destruct He as (sub & m & -> & _). done.
Qed.

End Notify.

(** ** The dispatch round trip *)

Section Dispatch.

Context {State : Type}.
Variable shallowDiff : obj → obj → list patch_op.

Implicit Types (st : @store State) (dispatch : @dispatch_fn State).

Lemma fresh_loc_fresh (h : heap) : h !! fresh_loc h = None.
Proof. apply not_elem_of_dom. unfold fresh_loc. apply is_fresh. Qed.

Lemma dispatched_field_first field h action a rest :
  h !! action = Some a →
  dispatched_field field (Dispatched h action :: rest) = a !! field.
Proof. intros Ha. unfold dispatched_field; cbn. by rewrite Ha. Qed.

Lemma Object_assign_new (s1 s2 : obj) :
  Object_assign ∅ [s1; s2] = delete "__proto__" s2 ∪ delete "__proto__" s1.
Proof.
  unfold Object_assign. cbn [foldl]. rewrite lookup_empty.
  rewrite (right_id_L ∅ (∪)), lookup_delete_eq. done.
Qed.

Lemma action_of_lookup h request sender k :
  action_of h request sender !! k =
  if decide (k = "_sender") then Some sender
  else if decide (k = "__proto__") then None
  else own_props h (req_payload request) !! k.
Proof.
  unfold action_of. rewrite Object_assign_new.
  rewrite (delete_id {["_sender" := sender]}) by done.
  case_decide as Hk.
  - subst k. apply lookup_union_Some_l. apply lookup_singleton_eq.
  - rewrite lookup_union_r by (by apply lookup_singleton_ne).
    case_decide as Hp.
    + subst k. apply lookup_delete_eq.
    + by rewrite lookup_delete_ne.
Qed.

Lemma tryDispatch_first dispatch st h action :
  ∃ rest, (tryDispatch shallowDiff dispatch st h action).1.2
          = Dispatched h action :: rest.
Proof.
  unfold tryDispatch.
  destruct (notify_all _ _ _) as [st' posted].
  destruct (out_result _) as [result|e]; [by eexists|].
  destruct (get_message _ e); by eexists.
Qed.

Lemma dispatchResponse_first dispatch pn responder st sender h request :
  shouldDeserialize pn request = true →
  ∃ rest,
    (dispatchResponse shallowDiff dispatch pn responder st sender h request).1.2
    = Dispatched (<[fresh_loc h := action_of h request sender]> h) (fresh_loc h)
      :: rest.
Proof.
  unfold shouldDeserialize, dispatchResponse. intros ->.
  fold (action_of h request sender).
  destruct (tryDispatch_first dispatch st
              (<[fresh_loc h := action_of h request sender]> h) (fresh_loc h))
    as [rest Hrest].
  destruct (tryDispatch _ _ _ _ _) as [[st' effects] [[h2 result]|e]];
    cbn in Hrest; subst effects.
  - destruct responder as [respond|v].
    + destruct (respond h2 result) as [sent r]. by eexists.
    + by eexists.
  - by eexists.
Qed.

(** For a request that passes the type and portName checks, the first
    thing [dispatchResponse] does is to call [store.dispatch] with a new
    object.  It agrees with the payload on every top-level property other
    than [_sender] and [__proto__]; it has no [__proto__] property of its
    own, whatever the payload has; its [_sender] is the sender.  Every
    object that existed before the call, the payload among them, is as it
    was. *)
Lemma dispatchResponse_action dispatch pn responder st sender h request :
  shouldDeserialize pn request = true →
  ∃ h1 action a,
    first_dispatch
      (dispatchResponse shallowDiff dispatch pn responder st sender h request).1.2
    = Some (h1, action)
    ∧ h1 !! action = Some a
    ∧ (∀ k, k ≠ "_sender" → k ≠ "__proto__" →
            a !! k = own_props h (req_payload request) !! k)
    ∧ a !! "__proto__" = None
    ∧ a !! "_sender" = Some sender
    ∧ h !! action = None
    ∧ (∀ l o, h !! l = Some o → h1 !! l = Some o).
Proof.
  intros Hpass.
  destruct (dispatchResponse_first dispatch pn responder st sender h request Hpass)
    as [rest Heff].
  exists (<[fresh_loc h := action_of h request sender]> h), (fresh_loc h),
         (action_of h request sender).
  rewrite Heff. repeat split.
  - apply lookup_insert_eq.
  - intros k Hk Hp. rewrite action_of_lookup. by rewrite !decide_False.
  - rewrite action_of_lookup. by rewrite decide_False, decide_True.
  - rewrite action_of_lookup. by rewrite decide_True.
  - apply fresh_loc_fresh.
  - intros l o Hl. rewrite lookup_insert_ne; [done|].
    intros <-. by rewrite fresh_loc_fresh in Hl.
Qed.

(** C10.  Two requests that pass the checks and come with the same sender
    metadata give dispatched actions with the same [_sender], the sender
    metadata, whatever the two payloads hold (a [_sender] of their own
    included), and whatever else differs between the two calls. *)
Theorem dispatchResponse_sender_from_transport
    dispatch1 dispatch2 pn1 pn2 responder1 responder2 st1 st2 sender
    h1 h2 request1 request2 :
  shouldDeserialize pn1 request1 = true →
  shouldDeserialize pn2 request2 = true →
  dispatched_field "_sender"
    (dispatchResponse shallowDiff dispatch1 pn1 responder1 st1 sender h1 request1).1.2
  = Some sender
  ∧ dispatched_field "_sender"
      (dispatchResponse shallowDiff dispatch2 pn2 responder2 st2 sender h2 request2).1.2
    = Some sender.
Proof.
  intros Hpass1 Hpass2.
  destruct (dispatchResponse_first dispatch1 pn1 responder1 st1 sender h1 request1 Hpass1)
    as [rest1 ->].
  destruct (dispatchResponse_first dispatch2 pn2 responder2 st2 sender h2 request2 Hpass2)
    as [rest2 ->].
  rewrite !(dispatched_field_first _ _ _ _ _ (lookup_insert_eq _ _ _)).
  rewrite !action_of_lookup. by rewrite !decide_True.
Qed.

Lemma tryDispatch_throwing message h' notified st h action :
  tryDispatch shallowDiff (throwing_store message h' notified) st h action =
  ((notify_all shallowDiff st notified).1,
   Dispatched h action
   :: (notify_all shallowDiff st notified).2 ++ [ConsoleError [VError message]],
   Normal (h', Promised (Rejected (VStr message)))).
Proof.
  unfold tryDispatch, throwing_store; cbn [out_result out_heap out_notified].
  by destruct (notify_all _ _ _).
Qed.

(** C1, as the code has it.  When [store.dispatch] throws an [Error], the
    handler with the default responder returns [true] without throwing and
    answers exactly once, and the answer is [{error: undefined, value:
    null}] whatever the message of the error: [Promise.reject(e.message)]
    rejects with the message, a string, and [promiseResponder] then reads
    the [message] property of that string. *)
Theorem dispatchResponse_thrown_error_answer
    message h' notified pn st sender h payload :
  let request := Request (VStr DISPATCH_TYPE) pn payload in
  let r := dispatchResponse shallowDiff (throwing_store message h' notified)
             pn (Fn promiseResponder) st sender h request in
  r.2 = Normal (VBool true)
  ∧ responses r.1.2 = [Envelope VUndefined VNull].
Proof.
  intros request r. subst r request.
  unfold dispatchResponse, strict_eq; cbn [req_type req_portName].
  rewrite !bool_decide_eq_true_2 by done; cbn [andb].
  rewrite tryDispatch_throwing.
  destruct (notify_all_channels shallowDiff st notified) as [_ Hposted].
  cbn -[notify_all]. split; [done|].
  unfold responses in *. rewrite !omap_app; cbn -[notify_all].
  fold (responses (notify_all shallowDiff st notified).2).
  by rewrite (responses_from_listener _ _ Hposted).
Qed.

End Dispatch.

(** ** The background page: connections and disconnections *)

Section Hub.

Context {State : Type}.
Variable shallowDiff : obj → obj → list patch_op.

Implicit Types (st : @store State) (sub : @subscription State)
  (ls : list (@subscription State)) (hb : @hub State) (rt : @runtime State)
  (selectors : selector_map State) (ev : @event State).

(** *** What each handler posts *)

Lemma tryDispatch_channels dispatch st h action :
  let r := tryDispatch shallowDiff dispatch st h action in
  same_channels shallowDiff (listeners st) (listeners r.1.1)
  ∧ Forall (posts_from (listeners st)) r.1.2.
Proof.
  unfold tryDispatch.
  destruct (notify_all_channels shallowDiff st
              (out_notified (dispatch (getState st) h action))) as [Hsame Hposted].
  destruct (notify_all _ _ _) as [st' posted]; cbn in Hsame, Hposted.
  assert (Hposts : Forall (posts_from (listeners st)) posted).
  { eapply Forall_impl; [exact Hposted|]. apply from_listener_posts_from. }
  destruct (out_result _) as [result|e]; cbn.
  - split; [done|]. by constructor.
  - destruct (get_message _ e); cbn; (split; [done|]); constructor; try done.
    apply Forall_app. split; [done|]. by repeat constructor.
Qed.

Lemma reply_effects_posts_from ls (sent : list reply) :
  Forall (posts_from ls) (map reply_effect sent).
Proof. apply Forall_fmap, Forall_forall. by intros [r|args] _. Qed.

Lemma dispatchResponse_channels dispatch pn responder st sender h request :
  let r := dispatchResponse shallowDiff dispatch pn responder st sender h request in
  same_channels shallowDiff (listeners st) (listeners r.1.1)
  ∧ Forall (posts_from (listeners st)) r.1.2.
Proof.
  unfold dispatchResponse.
  destruct (_ && _); cbn; [|split; [apply same_channels_refl | constructor]].
  match goal with |- context [tryDispatch _ _ _ ?h1 ?a] =>
    destruct (tryDispatch_channels dispatch st h1 a) as [Hsame Hposted];
    destruct (tryDispatch shallowDiff dispatch st h1 a) as [[st' effects] [[h2 result]|e]]
  end; cbn in *; [|done].
  destruct responder as [respond|v]; [|done].
  destruct (respond h2 result) as [sent r]; cbn.
  split; [done|]. apply Forall_app. split; [done|]. apply reply_effects_posts_from.
Qed.

Lemma call_message_channels ls0 sender h request acc l :
  same_channels shallowDiff ls0 (listeners acc.1) →
  Forall (posts_from ls0) acc.2 →
  let r := call_message shallowDiff sender h request acc l in
  same_channels shallowDiff ls0 (listeners r.1) ∧ Forall (posts_from ls0) r.2.
Proof.
  intros Hsame Hposted. destruct l as [dispatch pn responder de].
  unfold call_message, deserializeListener.
  assert (Hcall : ∀ h1 request1,
    let '(st, effects, r) :=
      dispatchResponse shallowDiff dispatch pn responder acc.1 sender h1 request1 in
    same_channels shallowDiff ls0 (listeners st)
    ∧ Forall (posts_from ls0)
        (acc.2 ++ effects ++ match r with Throw e => [Uncaught e] | Normal _ => [] end)).
  { intros h1 request1.
    destruct (dispatchResponse_channels dispatch pn responder acc.1 sender h1 request1)
      as [Hs Hp].
    destruct (dispatchResponse _ _ _ _ _ _ _ _) as [[st effects] r]; cbn in *.
    split; [by eapply same_channels_trans|].
    apply Forall_app. split; [done|]. apply Forall_app. split.
    - eapply Forall_impl; [exact Hp|]. intros e. by apply (posts_from_mono shallowDiff).
    - destruct r; by repeat constructor. }
  destruct (shouldDeserialize pn request).
  - destruct (de (h, req_payload request)) as [h1 p].
    specialize (Hcall h1 (Request (req_type request) (req_portName request) p)).
    by destruct (dispatchResponse _ _ _ _ _ _ _ _) as [[st effects] r].
  - specialize (Hcall h request).
    by destruct (dispatchResponse _ _ _ _ _ _ _ _) as [[st effects] r].
Qed.

Lemma call_messages_channels ls0 sender h request (lsn : list message_listener) acc :
  same_channels shallowDiff ls0 (listeners acc.1) →
  Forall (posts_from ls0) acc.2 →
  let r := foldl (call_message shallowDiff sender h request) acc lsn in
  same_channels shallowDiff ls0 (listeners r.1) ∧ Forall (posts_from ls0) r.2.
Proof.
  revert acc. induction lsn as [|l lsn IH]; intros acc Hsame Hposted; cbn; [done|].
  destruct (call_message_channels ls0 sender h request acc l Hsame Hposted).
  by apply IH.
Qed.

(** [connectState] on a port whose name is [portName]. *)
Lemma connectState_match selectors pn ser st port :
  connectState selectors pn ser st port pn =
  (subscribe (Subscription port ser selectors (initialStates selectors (getState st))) st,
   map (λ entry, Post port (state_message ser entry.1 (entry.2 (getState st))))
       (map_to_list selectors)).
Proof.
  unfold connectState, strict_eq. rewrite bool_decide_eq_true_2 by done. cbn.
  f_equal. apply map_ext_in. intros [k sel] Hin. cbn.
  unfold serializedMessagePoster, withSerializer, state_message; cbn.
  apply list_elem_of_In, elem_of_map_to_list in Hin.
  rewrite lookup_total_alt, initialStates_lookup, Hin. done.
Qed.

Lemma connectState_other selectors pn ser st port name :
  name ≠ pn → connectState selectors pn ser st port name = (st, []).
Proof.
  intros Hne. unfold connectState, strict_eq.
  by rewrite bool_decide_eq_false_2.
Qed.

(** The [STATE] messages of a connection, key by key. *)
Lemma posted_on_states ser port (state : State) (l : list (string * (State → obj))) p k :
  NoDup l.*1 →
  let posts := map (λ entry, Post port (state_message ser entry.1 (entry.2 state))) l in
  (p ≠ port → posted_on p k posts = [])
  ∧ (∀ sel, (k, sel) ∈ l → posted_on port k posts = [state_message ser k (sel state)])
  ∧ (k ∉ l.*1 → posted_on port k posts = []).
Proof.
  induction l as [|[k1 sel1] l IH]; intros Hnd; cbn [map].
  { repeat split; try done. intros sel Hin. by apply elem_of_nil in Hin. }
  apply NoDup_cons in Hnd as [Hk1 Hnd].
  destruct (IH Hnd) as (IHp & IHin & IHout).
  rewrite !posted_on_cons_post; cbn [fst snd state_message msg_key].
  split; [|split].
  - intros Hp. rewrite decide_False by (intros [? _]; congruence). by apply IHp.
  - intros sel Hin. apply elem_of_cons in Hin as [Heq|Hin].
    + inversion Heq; subst k1 sel1. rewrite decide_True by done.
      by rewrite (IHout Hk1).
    + rewrite decide_False.
      * by apply IHin.
      * intros [_ ->]. apply Hk1. apply list_elem_of_fmap. by exists (k, sel).
  - intros Hk. apply not_elem_of_cons in Hk as [Hne Hk]. cbn [fst] in Hne.
    rewrite decide_False by (intros [_ ?]; congruence). by apply IHout.
Qed.


(** *** After a disconnection *)

Lemma hub_run_app hb evs1 evs2 :
  hub_run shallowDiff hb (evs1 ++ evs2) =
  let r1 := hub_run shallowDiff hb evs1 in
  let r2 := hub_run shallowDiff r1.1 evs2 in
  (r2.1, r1.2 ++ r2.2).
Proof.
  revert hb. induction evs1 as [|ev evs1 IH]; intros hb; cbn.
  { by destruct (hub_run shallowDiff hb evs2). }
  rewrite IH. cbn. by rewrite app_assoc.
Qed.

Lemma call_connects_ports port name (lsn : list connect_listener) acc :
  let r := foldl (call_connect port name) acc lsn in
  (∀ sub, sub ∈ listeners r.1 → sub ∈ listeners acc.1 ∨ sub_port sub = port)
  ∧ ∃ new, r.2 = acc.2 ++ new ∧ Forall (λ e, ∃ m, e = Post port m) new.
Proof.
  revert acc. induction lsn as [|[selectors pn ser] lsn IH]; intros acc; cbn.
  { split; [by left|]. exists []. by rewrite app_nil_r. }
  destruct (IH (call_connect port name acc (ConnectState selectors pn ser)))
    as (Hsubs & new & Hnew & Hposts).
  clear IH. cbn in Hsubs, Hnew.
  destruct (decide (name = pn)) as [->|Hne].
  - rewrite connectState_match in Hsubs, Hnew |- *. cbn in *. split.
    + intros sub Hsub. destruct (Hsubs sub Hsub) as [Hin| ->]; [|by right].
      apply elem_of_app in Hin as [Hin|Hin]; [by left|].
      apply list_elem_of_singleton in Hin as ->. by right.
    + eexists. rewrite Hnew, <- app_assoc. split; [done|].
      apply Forall_app. split; [|done].
      apply Forall_fmap, Forall_forall. intros entry _. by eexists.
  - rewrite connectState_other in Hsubs, Hnew |- * by done. cbn in *.
    split; [done|]. exists new. split; [|done].
    rewrite Hnew. by rewrite app_nil_r.
Qed.

Lemma hub_step_released port hb ev :
  released port hb →
  released port (hub_step shallowDiff hb ev).1
  ∧ ∀ m, Post port m ∉ (hub_step shallowDiff hb ev).2.
Proof.
  intros [Hport Hsubs]. destruct ev as [external name|q|external h request sender|state]; cbn.
  - destruct (call_connects_ports (hub_ports hb) name
                (connect_listeners (hub_runtime hb) external) (hub_store hb, []))
      as (Hls & new & Hnew & Hposts). cbn in Hls, Hnew.
    split; [split|].
    + cbn. lia.
    + cbn. intros sub Hsub. destruct (Hls sub Hsub) as [Hin|Hp]; [by apply Hsubs|lia].
    + intros m Hin. rewrite Hnew in Hin.
      apply (proj1 (Forall_forall _ _) Hposts) in Hin as [m' Heq].
      inversion Heq. lia.
  - split; [split|]; cbn; [done| |].
    + intros sub Hsub. apply list_elem_of_filter in Hsub as [_ Hsub]. by apply Hsubs.
    + intros m Hin. by apply elem_of_nil in Hin.
  - destruct (call_messages_channels (listeners (hub_store hb)) sender h request
                (message_listeners (hub_runtime hb) external) (hub_store hb, []))
      as [Hsame Hposts]; [apply same_channels_refl | constructor |].
    split; [split|]; cbn; [done| |].
    + intros sub' Hsub'. destruct (same_channels_channel shallowDiff _ _ Hsame sub' Hsub')
        as (sub & Hsub & Hp & _).
      rewrite Hp. by apply Hsubs.
    + intros m Hin. apply (proj1 (Forall_forall _ _) Hposts) in Hin.
      destruct Hin as (sub & m' & Heq & Hsub & _). inversion Heq.
      by apply (Hsubs sub).
  - destruct (notify_channels shallowDiff (hub_store hb) state) as [Hsame Hposts].
    split; [split|]; [done| |].
    + intros sub' Hsub'. destruct (same_channels_channel shallowDiff _ _ Hsame sub' Hsub')
        as (sub & Hsub & Hp & _).
      rewrite Hp. by apply Hsubs.
    + intros m Hin. apply (proj1 (Forall_forall _ _) Hposts) in Hin.
      destruct Hin as (sub & m' & Heq & Hsub & _). inversion Heq.
      by apply (Hsubs sub).
Qed.

Lemma hub_run_released port hb evs :
  released port hb →
  released port (hub_run shallowDiff hb evs).1
  ∧ ∀ m, Post port m ∉ (hub_run shallowDiff hb evs).2.
Proof.
  revert hb. induction evs as [|ev evs IH]; intros hb Hrel; cbn.
  { split; [done|]. intros m Hin. by apply elem_of_nil in Hin. }
  destruct (hub_step_released port hb ev Hrel) as [Hrel' Hsilent].
  destruct (IH _ Hrel') as [Hrel'' Hsilent'].
  split; [done|]. intros m Hin.
  apply elem_of_app in Hin as [Hin|Hin]; [by apply (Hsilent m) | by apply (Hsilent' m)].
Qed.

(** C6.  Once the disconnect event of an existing port has fired, whatever
    happened before, no subscriber of the store is left that posts on that
    port, and whatever happens afterwards (state changes with a non-empty
    diff included), no message of any type is posted on it. *)
Theorem no_message_after_disconnect rt state0 evs1 port evs2 :
  let hb := (hub_run shallowDiff (hub_init rt state0)
               (evs1 ++ [OnDisconnect port])).1 in
  port < hub_ports hb →
  (∀ sub, sub ∈ listeners (hub_store hb) → sub_port sub ≠ port)
  ∧ ∀ m, Post port m ∉ (hub_run shallowDiff hb evs2).2.
Proof.
  intros hb Hport.
  assert (Hrel : released port hb).
  { split; [done|]. subst hb. rewrite hub_run_app. cbn.
    intros sub Hsub. apply list_elem_of_filter in Hsub as [Hp _]. done. }
  split; [apply Hrel|]. by apply hub_run_released.
Qed.


(** *** The messages of a channel, in order *)







(** *** Every subscriber is a channel *)

Lemma call_connects_channels port name (lsn : list (@connect_listener State)) acc :
  Forall (is_channel shallowDiff) (listeners acc.1) →
  Forall (is_channel shallowDiff)
         (listeners (foldl (call_connect port name) acc lsn).1).
Proof.
  revert acc. induction lsn as [|[selectors pn ser] lsn IH]; intros acc Hacc; cbn; [done|].
  apply IH. cbn. destruct (decide (name = pn)) as [->|Hne].
  - rewrite connectState_match. cbn. apply Forall_app. split; [done|].
    repeat constructor. by exists (getState acc.1), [].
  - by rewrite connectState_other.
Qed.

Lemma hub_step_channels hb ev :
  Forall (is_channel shallowDiff) (listeners (hub_store hb)) →
  Forall (is_channel shallowDiff)
         (listeners (hub_store (hub_step shallowDiff hb ev).1)).
Proof.
  intros Hls. destruct ev as [external name|q|external h request sender|state]; cbn.
  - by apply call_connects_channels.
  - apply Forall_forall. intros sub Hsub.
    apply list_elem_of_filter in Hsub as [_ Hsub].
    by apply (proj1 (Forall_forall _ _) Hls).
  - destruct (call_messages_channels (listeners (hub_store hb)) sender h request
                (message_listeners (hub_runtime hb) external) (hub_store hb, []))
      as [Hsame _]; [apply same_channels_refl | constructor |].
    by eapply same_channels_is_channel.
  - destruct (notify_channels shallowDiff (hub_store hb) state) as [Hsame _].
    by eapply same_channels_is_channel.
Qed.

End Hub.

(** ** Wrapping a store *)

Section Wrap.

Context {State : Type}.
Variable shallowDiff : obj → obj → list patch_op.

Implicit Types (dispatch : @dispatch_fn State) (selectors : selector_map State)
  (rt : @runtime State) (opts : options).

(** C7, as the code has it.  [wrapStoreSelectors] throws, with the runtime
    as it was (no listener added, nothing logged), when [portName] is
    falsy (missing, or [null], [false], [0], the empty string), when the
    serializer is given and is not a function, or when the deserializer is
    given and is not a function; in every other case it does not throw,
    and has added its listeners to [onMessage] and [onConnect]. *)
Theorem wrapStoreSelectors_guards dispatch selectors opts rt :
  let r := wrapStoreSelectors dispatch selectors opts rt in
  if rejected opts
  then (∃ message, r.2 = Throw (VError message)) ∧ r.1.1 = rt ∧ r.1.2 = []
  else r.2 = Normal () ∧ registered rt r.1.1.
Proof.
  unfold rejected, wrapStoreSelectors, registered.
  destruct (falsy (portName opts)); cbn; [by eauto|].
  destruct (with_default noop (serializer opts)) as [ser|v]; cbn; [|by eauto].
  destruct (with_default noop (deserializer opts)) as [de|v]; cbn; [|by eauto].
  rewrite !length_app; cbn. split; [done|]. split; lia.
Qed.



Lemma connectState_singleton (k : string) (sel : State → obj) pn ser
    (st : @store State) port :
  connectState {[k := sel]} pn ser st port pn =
  (subscribe (Subscription port ser {[k := sel]} {[k := sel (getState st)]}) st,
   [Post port (state_message ser k (sel (getState st)))]).
Proof.
  rewrite connectState_match. unfold initialStates.
  rewrite map_to_list_singleton. cbn. by rewrite insert_empty.
Qed.

Lemma patchState_singleton (k : string) (sel : State → obj) ser port state prev :
  patchState shallowDiff {[k := sel]} ser port state prev =
  (step_prev shallowDiff prev state (k, sel),
   map (Post port) (step_posts ser k (shallowDiff (prev !!! k) (sel state)))).
Proof.
  unfold patchState. rewrite map_to_list_singleton. cbn.
  by rewrite patchState_step_eq.
Qed.

End Wrap.

(** C9.  The default export [wrapStore] is [wrapStoreSelectors] called with
    the selectors object whose only entry is the identity on the whole
    state under the default selector key: the two register the same
    listeners, log the same, throw alike, and from then on the background
    page does the same on every sequence of events (same messages posted,
    same handling of dispatch requests).  With that selectors object a port
    that connects is sent one [STATE] message, the whole state under the
    default key, and a call of [patchState] posts the diff of the whole
    state against the one last sent. *)
Theorem wrapStore_identity_selector (shallowDiff : obj → obj → list patch_op)
    (DEFAULT_SELECTOR : string) (dispatch : @dispatch_fn obj) (opts : options)
    (rt : @runtime obj) (state0 : obj) (evs : list (@event obj))
    (pn : value) (ser : payload → payload) (st : @store obj) (port : nat)
    (state : obj) (prev : gmap string obj) :
  let selectors : selector_map obj := {[DEFAULT_SELECTOR := (λ state : obj, state)]} in
  let simple := wrapStore DEFAULT_SELECTOR dispatch opts rt in
  let selected := wrapStoreSelectors dispatch selectors opts rt in
  simple = selected
  ∧ hub_run shallowDiff (hub_init simple.1.1 state0) evs
    = hub_run shallowDiff (hub_init selected.1.1 state0) evs
  ∧ connectState selectors pn ser st port pn =
    (subscribe (Subscription port ser selectors {[DEFAULT_SELECTOR := getState st]}) st,
     [Post port (state_message ser DEFAULT_SELECTOR (getState st))])
  ∧ patchState shallowDiff selectors ser port state prev =
    (match shallowDiff (prev !!! DEFAULT_SELECTOR) state with
     | [] => prev
     | _ => <[DEFAULT_SELECTOR := state]> prev
     end,
     match shallowDiff (prev !!! DEFAULT_SELECTOR) state with
     | [] => []
     | diff => [Post port (patch_message ser DEFAULT_SELECTOR diff)]
     end).
Proof.
  intros selectors simple selected.
  split; [reflexivity|]. split; [reflexivity|]. split.
  - subst selectors.
    exact (connectState_singleton DEFAULT_SELECTOR (λ state : obj, state) pn ser st port).
  - subst selectors. rewrite patchState_singleton.
    unfold step_prev, step_posts, patch_of; cbn [fst snd].
    by destruct (shallowDiff (prev !!! DEFAULT_SELECTOR) state).
Qed.

(** ** The scenarios of the specification, and the theorems at work *)

Section Scenarios.

Import Scenario.

Let diff := ShallowDiff.shallowDiff.

(** State [{a:1,b:2}], then [{a:1,b:3}], selector [s2] on the port: a [STATE]
    message with [{b:2}], then a [PATCH_STATE] message updating [b] to 3;
    nothing for [s1] at the change. *)
Example scenario_state_then_patch :
  (hub_run diff page [OnConnect false (VStr "MY_APP"); StoreChanged state1]).2 =
  [Post 0 (Message STATE_TYPE "s1" (PView {[ "a" := VNum 1 ]}));
   Post 0 (Message STATE_TYPE "s2" (PView {[ "b" := VNum 2 ]}));
   Post 0 (Message PATCH_STATE_TYPE "s2"
             (PPatch [PatchOp OpUpdate "b" (Some (VNum 3))]))].
Proof. vm_compute. reflexivity. Qed.

(** A store that throws [Error("boom")]: the proxy is answered
    [{error: undefined, value: null}]. *)
Example scenario_boom :
  responses
    (dispatchResponse diff (throwing_store "boom" objects []) (VStr "MY_APP")
       (Fn promiseResponder) (Store state0 []) sender objects request_x).1.2
  = [Envelope VUndefined VNull].
Proof. vm_compute. reflexivity. Qed.

(** A store that throws [null]: reading [e.message] throws in the [catch]
    block, out of the handler, and no answer is sent. *)
Example scenario_throw_null :
  let r := dispatchResponse diff
             (λ _ h _, DispatchOutcome (Throw VNull) h []) (VStr "MY_APP")
             (Fn promiseResponder) (Store state0 []) sender objects request_x in
  responses r.1.2 = [] ∧ ∃ e, r.2 = Throw e.
Proof. vm_compute. split; [reflexivity | by eexists]. Qed.

(** A rejected promise whose reason is an [Error]: the answer carries its
    message. *)
Example scenario_rejected :
  promiseResponder objects (Promised (Rejected (VError "boom")))
  = ([Logged [VStr "error dispatching result:"; VError "boom"];
      Sent (Envelope (VStr "boom") VNull)], Normal VUndefined).
Proof. reflexivity. Qed.

End Scenarios.

(** C3 at work: a channel opened at [{a:1,b:2}], told of a change that
    leaves the state as it is, then of [{a:1,b:3}], posts for [s2] the diff
    from [{b:2}], the view of its [STATE] message. *)
Lemma patchState_diff_from_last_sent_witness :
  Scenario.selectors !! "s2" = Some Scenario.s2
  ∧ posted_on 0 "s2"
      (patchState ShallowDiff.shallowDiff Scenario.selectors noop 0 Scenario.state1
         (channel_run ShallowDiff.shallowDiff Scenario.selectors noop 0
            (initialStates Scenario.selectors Scenario.state0)
            [Scenario.state0]).1).2
    = [patch_message noop "s2" [PatchOp OpUpdate "b" (Some (VNum 3))]].
Proof.
  split; [reflexivity|].
  exact (proj1 (proj2 (patchState_diff_from_last_sent ShallowDiff.shallowDiff
                 Scenario.selectors noop 0 "s2" Scenario.s2 Scenario.state0
                 [Scenario.state0] Scenario.state1 eq_refl))).
Defined.

(** C4 at work: the change from [{a:1,b:2}] to [{a:1,b:3}] leaves the view
    of [s1] as it is, and nothing is posted for [s1]. *)
Lemma patchState_empty_diff_silent_witness :
  Scenario.selectors !! "s1" = Some Scenario.s1
  ∧ ShallowDiff.shallowDiff
      (initialStates Scenario.selectors Scenario.state0 !!! "s1")
      (Scenario.s1 Scenario.state1) = []
  ∧ posted_on 0 "s1"
      (patchState ShallowDiff.shallowDiff Scenario.selectors noop 0 Scenario.state1
         (initialStates Scenario.selectors Scenario.state0)).2 = []
  ∧ (patchState ShallowDiff.shallowDiff Scenario.selectors noop 0 Scenario.state1
       (initialStates Scenario.selectors Scenario.state0)).1 !! "s1"
    = initialStates Scenario.selectors Scenario.state0 !! "s1".
Proof.
  split; [reflexivity|]. split; [vm_compute; reflexivity|].
  apply (patchState_empty_diff_silent ShallowDiff.shallowDiff Scenario.selectors
           noop 0 Scenario.state1 (initialStates Scenario.selectors Scenario.state0)
           "s1" Scenario.s1); [reflexivity | vm_compute; reflexivity].
Defined.


(** C6 at work: port 0 connects and disconnects; the change to
    [{a:1,b:3}], which gave a patch in [scenario_state_then_patch], posts
    nothing on it. *)
Lemma no_message_after_disconnect_witness :
  (0 < hub_ports
         (hub_run ShallowDiff.shallowDiff (hub_init Scenario.rt Scenario.state0)
            ([OnConnect false (VStr "MY_APP")] ++ [OnDisconnect 0])).1)%nat
  ∧ ∀ m, Post 0 m ∉
      (hub_run ShallowDiff.shallowDiff
         (hub_run ShallowDiff.shallowDiff (hub_init Scenario.rt Scenario.state0)
            ([OnConnect false (VStr "MY_APP")] ++ [OnDisconnect 0])).1
         [StoreChanged Scenario.state1]).2.
Proof.
  split; [vm_compute; lia|].
  apply (no_message_after_disconnect ShallowDiff.shallowDiff Scenario.rt
           Scenario.state0 [OnConnect false (VStr "MY_APP")] 0
           [StoreChanged Scenario.state1]).
  vm_compute; lia.
Defined.

(** C8.  The request whose payload is
    [JSON.parse('{"type": "X", "__proto__": {"admin": true}}')] passes the
    checks, and its payload has a top-level field [__proto__].  The action
    passed to [store.dispatch] has the [type] of the payload and the
    [_sender], and no field [__proto__]: [Object.assign] writes that key
    through the setter of [Object.prototype].  The claim has the action
    agree with the payload on every top-level field except [_sender]. *)
Theorem dispatchResponse_proto_not_copied :
  shouldDeserialize (VStr "MY_APP") Edge.request_proto = true
  ∧ own_props Edge.objects_proto (req_payload Edge.request_proto) !! "__proto__"
    = Some (VRef 0)
  ∧ ∃ h1 action a,
      first_dispatch
        (dispatchResponse ShallowDiff.shallowDiff Scenario.dispatch (VStr "MY_APP")
           (Fn promiseResponder) (Store Scenario.state0 []) Scenario.sender
           Edge.objects_proto Edge.request_proto).1.2 = Some (h1, action)
      ∧ h1 !! action = Some a
      ∧ a !! "type" = Some (VStr "X")
      ∧ a !! "_sender" = Some Scenario.sender
      ∧ a !! "__proto__" = None
      ∧ h1 !! 1 = Some {[ "type" := VStr "X"; "__proto__" := VRef 0 ]}.
Proof.
  split; [reflexivity|]. split; [reflexivity|].
  destruct (dispatchResponse_first ShallowDiff.shallowDiff Scenario.dispatch
              (VStr "MY_APP") (Fn promiseResponder) (Store Scenario.state0 [])
              Scenario.sender Edge.objects_proto Edge.request_proto eq_refl)
    as [rest ->].
  eexists _, _, _. split; [reflexivity|]. split; [apply lookup_insert_eq|].
  rewrite !action_of_lookup.
  split; [reflexivity|]. split; [reflexivity|]. split; [reflexivity|].
  rewrite lookup_insert_ne; [reflexivity|].
  intros Heq. pose proof (fresh_loc_fresh Edge.objects_proto) as Hfresh.
  rewrite Heq in Hfresh. discriminate Hfresh.
Qed.

(** The action for the payload [{type: 'X', _sender: 'forged'}]. *)
Lemma dispatchResponse_action_witness :
  shouldDeserialize (VStr "MY_APP") Scenario.request_forged = true
  ∧ ∃ h1 action a,
      first_dispatch
        (dispatchResponse ShallowDiff.shallowDiff Scenario.dispatch (VStr "MY_APP")
           (Fn promiseResponder) (Store Scenario.state0 []) Scenario.sender
           Scenario.objects Scenario.request_forged).1.2 = Some (h1, action)
      ∧ h1 !! action = Some a
      ∧ a !! "type" = Some (VStr "X")
      ∧ a !! "__proto__" = None
      ∧ a !! "_sender" = Some Scenario.sender
      ∧ h1 !! 1 = Some {[ "type" := VStr "X"; "_sender" := VStr "forged" ]}.
Proof.
  split; [reflexivity|].
  destruct (dispatchResponse_action ShallowDiff.shallowDiff Scenario.dispatch
              (VStr "MY_APP") (Fn promiseResponder) (Store Scenario.state0 [])
              Scenario.sender Scenario.objects Scenario.request_forged eq_refl)
    as (h1 & action & a & Hfirst & Ha & Hfields & Hproto & Hsender & _ & Hkept).
  exists h1, action, a. split; [exact Hfirst|]. split; [exact Ha|].
  split; [rewrite Hfields by done; reflexivity|].
  split; [exact Hproto|].
  split; [exact Hsender|]. apply Hkept. reflexivity.
Defined.

(** C10 at work: a payload without [_sender] and one with a forged
    [_sender], from the same sender. *)
Lemma dispatchResponse_sender_from_transport_witness :
  shouldDeserialize (VStr "MY_APP") Scenario.request_x = true
  ∧ shouldDeserialize (VStr "MY_APP") Scenario.request_forged = true
  ∧ dispatched_field "_sender"
      (dispatchResponse ShallowDiff.shallowDiff Scenario.dispatch (VStr "MY_APP")
         (Fn promiseResponder) (Store Scenario.state0 []) Scenario.sender
         Scenario.objects Scenario.request_x).1.2 = Some Scenario.sender
  ∧ dispatched_field "_sender"
      (dispatchResponse ShallowDiff.shallowDiff Scenario.dispatch (VStr "MY_APP")
         (Fn promiseResponder) (Store Scenario.state0 []) Scenario.sender
         Scenario.objects Scenario.request_forged).1.2 = Some Scenario.sender.
Proof.
  split; [reflexivity|]. split; [reflexivity|].
  apply (dispatchResponse_sender_from_transport ShallowDiff.shallowDiff);
    reflexivity.
Defined.

(** C7, the claim as it is written, at the options
    [{portName: '', serializer: noop, deserializer: noop}]: the port name is
    there and both transforms are functions, and the call throws. *)
Lemma wrapStoreSelectors_empty_portName_throws :
  portName Scenario.opts_empty_name = VStr ""
  ∧ is_function (serializer Scenario.opts_empty_name) = true
  ∧ is_function (deserializer Scenario.opts_empty_name) = true
  ∧ (wrapStoreSelectors Scenario.dispatch Scenario.selectors
       Scenario.opts_empty_name (empty_runtime true)).2
    = Throw (VError "portName is required in options").
Proof. repeat split. Qed.

(** ** Besides the claims *)

(** ** The default responder *)

(** The default responder never throws and never answers twice; it does
    not answer at all exactly when the promise never settles, or rejects
    with [undefined] or [null] (reading [err.message] then throws in the
    [catch] callback, before [send]). *)
Lemma promiseResponder_at_most_once (h : heap) (result : dispatch_result) :
  (promiseResponder h result).2 = Normal VUndefined
  ∧ (length (answers (promiseResponder h result).1) ≤ 1)%nat
  ∧ (answers (promiseResponder h result).1 = [] ↔
     Promise_resolve result = Pending
     ∨ Promise_resolve result = Rejected VUndefined
     ∨ Promise_resolve result = Rejected VNull).
Proof.
  unfold promiseResponder. split; [done|].
  destruct (Promise_resolve result) as [v|reason|]; cbn.
  - split; [lia|]. split; [done|]. intros [?|[?|?]]; done.
  - destruct reason; cbn; (split; [lia|]); split; try done; auto;
      intros [?|[?|?]]; done.
  - split; [lia|]. split; auto.
Qed.

(** ** What [patchState] posts *)

Section Patches.

Context {State : Type}.
Variable shallowDiff : obj → obj → list patch_op.

Implicit Types (selectors : selector_map State) (prev : gmap string obj)
  (state : State).

Lemma patchState_fold_posts ser port state (l : list (string * (State → obj)))
    prev effects :
  NoDup l.*1 →
  ∃ new,
    (foldl (patchState_step shallowDiff ser port state) (prev, effects) l).2
    = effects ++ new
    ∧ Forall (λ e, ∃ entry, entry ∈ l
                ∧ patch_of shallowDiff prev state entry ≠ []
                ∧ e = Post port (patch_message ser entry.1
                                   (patch_of shallowDiff prev state entry))) new.
Proof.
  revert prev effects. induction l as [|[k1 sel1] l IH]; intros prev effects Hnd; cbn.
  { exists []. by rewrite app_nil_r. }
  apply NoDup_cons in Hnd as [Hk1 Hnd].
  rewrite patchState_step_eq; cbn [fst snd].
  destruct (IH (step_prev shallowDiff prev state (k1, sel1))
               (effects ++ map (Post port)
                  (step_posts ser k1 (patch_of shallowDiff prev state (k1, sel1)))) Hnd)
    as (new & Hnew & Hshape).
  eexists. rewrite Hnew, <- app_assoc. split; [done|].
  apply Forall_app. split.
  - unfold step_posts.
    destruct (patch_of shallowDiff prev state (k1, sel1)) as [|p d] eqn:Hd; cbn;
      [constructor|].
    repeat constructor. exists (k1, sel1). rewrite Hd. split; [left|]. done.
  - eapply Forall_impl; [exact Hshape|]. cbn.
    intros e (entry & Hin & Hd & ->).
    assert (Hne : entry.1 ≠ k1).
    { intros Heq. apply Hk1. rewrite <- Heq. apply list_elem_of_fmap. by exists entry. }
    rewrite (patch_of_step_ne shallowDiff prev state (k1, sel1) entry Hne) in Hd |- *.
    exists entry. split; [by right|]. done.
Qed.

(** A call of [patchState] posts nothing but [PATCH_STATE] messages on its
    own port, each under the key of a registered selector and carrying the
    diff, not empty, from the cached view of that selector to its view of
    the new state; and at most one message under each key. *)
Lemma patchState_posts_changes selectors ser port state prev :
  let r := patchState shallowDiff selectors ser port state prev in
  Forall (λ e, ∃ k sel,
            selectors !! k = Some sel
            ∧ shallowDiff (prev !!! k) (sel state) ≠ []
            ∧ e = Post port (patch_message ser k
                               (shallowDiff (prev !!! k) (sel state)))) r.2
  ∧ ∀ k, (length (posted_on port k r.2) ≤ 1)%nat.
Proof.
  intros r. split.
  - destruct (patchState_fold_posts ser port state (map_to_list selectors) prev []
                (NoDup_fst_map_to_list selectors)) as (new & Hnew & Hshape).
    subst r. unfold patchState. rewrite Hnew. cbn.
    eapply Forall_impl; [exact Hshape|]. cbn.
    intros e ([k sel] & Hin & Hd & ->). exists k, sel.
    split; [by apply elem_of_map_to_list|]. done.
  - intros k. destruct (selectors !! k) as [sel|] eqn:Hsel.
    + destruct (patchState_key shallowDiff selectors ser port state prev k sel Hsel)
        as [_ Hposts].
      fold r in Hposts. rewrite Hposts. unfold step_posts.
      destruct (patch_of _ _ _ _); cbn; lia.
    + destruct (patchState_other_key shallowDiff selectors ser port state prev k Hsel)
        as [_ Hposts].
      fold r in Hposts. rewrite Hposts. cbn. lia.
Qed.

(** *** The keys of [prevStates] *)

Lemma initialStates_dom selectors state :
  dom (initialStates selectors state) = dom selectors.
Proof.
  apply set_eq. intros k. rewrite !elem_of_dom, initialStates_lookup.
  by rewrite fmap_is_Some.
Qed.

Lemma patchState_dom selectors ser port state prev :
  dom prev = dom selectors →
  dom (patchState shallowDiff selectors ser port state prev).1 = dom selectors.
Proof.
  intros Hdom. apply set_eq. intros k. rewrite !elem_of_dom.
  destruct (selectors !! k) as [sel|] eqn:Hsel.
  - destruct (patchState_key shallowDiff selectors ser port state prev k sel Hsel)
      as [-> _].
    split; [by eauto|]. intros _.
    assert (Hk : is_Some (prev !! k)).
    { apply elem_of_dom. rewrite Hdom. apply elem_of_dom. by eauto. }
    unfold step_prev. destruct (patch_of _ _ _ _); cbn; [done|].
    rewrite lookup_insert_eq. by eauto.
  - destruct (patchState_other_key shallowDiff selectors ser port state prev k Hsel)
      as [-> _].
    assert (Hk : prev !! k = None).
    { apply not_elem_of_dom. rewrite Hdom. by apply not_elem_of_dom. }
    rewrite Hk. split; intros [? ?]; done.
Qed.

Lemma channel_run_dom selectors ser port prev (states : list State) :
  dom prev = dom selectors →
  dom (channel_run shallowDiff selectors ser port prev states).1 = dom selectors.
Proof.
  revert prev. induction states as [|state states IH]; intros prev Hdom; cbn; [done|].
  apply IH. by apply patchState_dom.
Qed.

Lemma is_channel_dom (sub : @subscription State) :
  is_channel shallowDiff sub →
  dom (sub_prevStates sub) = dom (sub_selectors sub).
Proof.
  intros (state0 & states & ->). apply channel_run_dom, initialStates_dom.
Qed.

Lemma hub_run_channels (hb : @hub State) evs :
  Forall (is_channel shallowDiff) (listeners (hub_store hb)) →
  Forall (is_channel shallowDiff)
         (listeners (hub_store (hub_run shallowDiff hb evs).1)).
Proof.
  revert hb. induction evs as [|ev evs IH]; intros hb Hls; cbn; [done|].
  apply IH. by apply hub_step_channels.
Qed.

(** Whatever happened to the background page, [prevStates] of every
    subscriber of the store has exactly the keys of its selectors: the
    cached view that [patchState] reads, [prevStates[sKey]], is there for
    every key of the loop, and no other key is ever cached. *)
Lemma cached_keys_are_selector_keys (rt : @runtime State) (state0 : State) evs :
  Forall (λ sub, dom (sub_prevStates sub) = dom (sub_selectors sub))
         (listeners (hub_store (hub_run shallowDiff (hub_init rt state0) evs).1)).
Proof.
  eapply Forall_impl; [apply hub_run_channels; constructor|].
  apply is_channel_dom.
Qed.

End Patches.

(** ** The listeners at work *)

Section Listeners.

Context {State : Type}.
Variable shallowDiff : obj → obj → list patch_op.

Implicit Types (st : @store State) (hb : @hub State) (rt : @runtime State)
  (dispatch : @dispatch_fn State) (selectors : selector_map State)
  (opts : options).

(** What a call of [wrapStoreSelectors] that returns has made of a runtime
    without listeners. *)
Lemma wrapStoreSelectors_empty dispatch selectors opts external rt warnings :
  wrapStoreSelectors dispatch selectors opts (empty_runtime external)
  = (rt, warnings, Normal ()) →
  ∃ ser de,
    with_default noop (serializer opts) = Fn ser
    ∧ with_default noop (deserializer opts) = Fn de
    ∧ rt = Runtime
        [DispatchResponse dispatch (portName opts)
           (if arg_falsy (dispatchResponder opts) then Fn promiseResponder
            else dispatchResponder opts) de]
        (if external
         then Some [DispatchResponse dispatch (portName opts)
                      (if arg_falsy (dispatchResponder opts) then Fn promiseResponder
                       else dispatchResponder opts) de]
         else None)
        [ConnectState selectors (portName opts) ser]
        (if external then Some [ConnectState selectors (portName opts) ser] else None)
    ∧ warnings =
      if external then []
      else [ConsoleWarn "runtime.onMessageExternal is not supported";
            ConsoleWarn "runtime.onConnectExternal is not supported"].
Proof.
  unfold wrapStoreSelectors.
  destruct (falsy (portName opts)); [done|].
  destruct (with_default noop (serializer opts)) as [ser|v]; [|done].
  destruct (with_default noop (deserializer opts)) as [de|v]; [|done].
  intros Heq. exists ser, de. split; [done|]. split; [done|].
  destruct external; cbn in Heq; inversion Heq; done.
Qed.

(** A request that fails the test of [dispatchResponse] goes through a
    registered listener without a trace. *)
Lemma call_message_foreign dispatch pn responder de sender h request acc :
  shouldDeserialize pn request = false →
  call_message shallowDiff sender h request acc
    (DispatchResponse dispatch pn responder de) = (acc.1, acc.2).
Proof.
  intros Hno. unfold call_message, deserializeListener. rewrite Hno.
  unfold dispatchResponse. unfold shouldDeserialize in Hno. rewrite Hno.
  by rewrite !app_nil_r.
Qed.

(** Once [wrapStoreSelectors] has returned, a message that is not a dispatch
    request for its port name (another type, or another port name) changes
    nothing and has no effect: the store is not called, nothing is
    answered, nothing is posted, whether the message is internal or
    external. *)
Lemma foreign_message_ignored dispatch selectors opts external rt warnings
    st ports external' h request sender :
  wrapStoreSelectors dispatch selectors opts (empty_runtime external)
  = (rt, warnings, Normal ()) →
  shouldDeserialize (portName opts) request = false →
  hub_step shallowDiff (Hub rt st ports) (OnMessage external' h request sender)
  = (Hub rt st ports, []).
Proof.
  intros Hwrap Hno.
  destruct (wrapStoreSelectors_empty _ _ _ _ _ _ Hwrap) as (ser & de & _ & _ & -> & _).
  destruct external', external; cbn -[call_message]; try done;
    by rewrite call_message_foreign.
Qed.

(** Once [wrapStoreSelectors] has returned on a runtime that has the
    external events, an external connection or message is handled as an
    internal one is, and nothing was logged; on a runtime that lacks them,
    the two warnings were logged, and an external connection or message
    does nothing. *)
Lemma external_events dispatch selectors opts external rt warnings
    st ports name h request sender :
  wrapStoreSelectors dispatch selectors opts (empty_runtime external)
  = (rt, warnings, Normal ()) →
  if external then
    warnings = []
    ∧ hub_step shallowDiff (Hub rt st ports) (OnConnect true name)
      = hub_step shallowDiff (Hub rt st ports) (OnConnect false name)
    ∧ hub_step shallowDiff (Hub rt st ports) (OnMessage true h request sender)
      = hub_step shallowDiff (Hub rt st ports) (OnMessage false h request sender)
  else
    warnings = [ConsoleWarn "runtime.onMessageExternal is not supported";
                ConsoleWarn "runtime.onConnectExternal is not supported"]
    ∧ hub_step shallowDiff (Hub rt st ports) (OnConnect true name)
      = (Hub rt st (S ports), [])
    ∧ hub_step shallowDiff (Hub rt st ports) (OnMessage true h request sender)
      = (Hub rt st ports, []).
Proof.
  intros Hwrap.
  destruct (wrapStoreSelectors_empty _ _ _ _ _ _ Hwrap) as (ser & de & _ & _ & -> & ->).
  by destruct external.
Qed.


Lemma hub_run_runtime hb evs :
  hub_runtime (hub_run shallowDiff hb evs).1 = hub_runtime hb.
Proof.
  revert hb. induction evs as [|ev evs IH]; intros hb; cbn; [done|].
  rewrite IH. by destruct ev.
Qed.

Lemma hub_step_ports_bounded hb ev :
  (∀ sub, sub ∈ listeners (hub_store hb) → sub_port sub < hub_ports hb) →
  ∀ sub, sub ∈ listeners (hub_store (hub_step shallowDiff hb ev).1) →
    sub_port sub < hub_ports (hub_step shallowDiff hb ev).1.
Proof.
  intros Hls. destruct ev as [external name|q|external h request sender|state]; cbn.
  - destruct (call_connects_ports (hub_ports hb) name
                (connect_listeners (hub_runtime hb) external) (hub_store hb, []))
      as (Hin & _). cbn in Hin.
    intros sub Hsub. destruct (Hin sub Hsub) as [Hold| ->]; [|lia].
    specialize (Hls sub Hold). lia.
  - intros sub Hsub. apply list_elem_of_filter in Hsub as [_ Hsub]. by apply Hls.
  - destruct (call_messages_channels shallowDiff (listeners (hub_store hb)) sender h
                request (message_listeners (hub_runtime hb) external) (hub_store hb, []))
      as [Hsame _]; [apply same_channels_refl | constructor |].
    intros sub' Hsub'.
    destruct (same_channels_channel shallowDiff _ _ Hsame sub' Hsub')
      as (sub & Hsub & -> & _).
    by apply Hls.
  - destruct (notify_channels shallowDiff (hub_store hb) state) as [Hsame _].
    intros sub' Hsub'.
    destruct (same_channels_channel shallowDiff _ _ Hsame sub' Hsub')
      as (sub & Hsub & -> & _).
    by apply Hls.
Qed.

Lemma hub_run_ports_bounded hb evs :
  (∀ sub, sub ∈ listeners (hub_store hb) → sub_port sub < hub_ports hb) →
  ∀ sub, sub ∈ listeners (hub_store (hub_run shallowDiff hb evs).1) →
    sub_port sub < hub_ports (hub_run shallowDiff hb evs).1.
Proof.
  revert hb. induction evs as [|ev evs IH]; intros hb Hls; cbn; [done|].
  apply IH. by apply hub_step_ports_bounded.
Qed.

(** Once [wrapStoreSelectors] has returned, a port that connects under a
    name other than the port name of the options is left alone: nothing is
    subscribed to the store for it, nothing is posted on it when it
    connects, and nothing is ever posted on it afterwards. *)
Lemma foreign_port_silent dispatch selectors opts external rt warnings
    state0 evs1 external' name evs2 :
  wrapStoreSelectors dispatch selectors opts (empty_runtime external)
  = (rt, warnings, Normal ()) →
  name ≠ portName opts →
  let hb := (hub_run shallowDiff (hub_init rt state0) evs1).1 in
  let r := hub_step shallowDiff hb (OnConnect external' name) in
  hub_store r.1 = hub_store hb
  ∧ r.2 = []
  ∧ ∀ m, Post (hub_ports hb) m ∉ (hub_run shallowDiff r.1 evs2).2.
Proof.
  intros Hwrap Hname hb r.
  destruct (wrapStoreSelectors_empty _ _ _ _ _ _ Hwrap) as (ser & de & _ & _ & Hrt & _).
  assert (Hhb : hub_runtime hb = rt) by apply hub_run_runtime.
  assert (Hstep : r = (Hub rt (hub_store hb) (S (hub_ports hb)), [])).
  { subst r. unfold hub_step. rewrite Hhb. unfold connect_listeners.
    rewrite Hrt. cbn [onConnect onConnectExternal].
    destruct external', external; cbn; try done;
      by rewrite connectState_other. }
  rewrite Hstep. cbn [fst snd hub_store]. split; [done|]. split; [done|].
  apply hub_run_released. split; cbn; [lia|].
  intros sub Hsub.
  assert (sub_port sub < hub_ports hb); [|lia].
  apply (hub_run_ports_bounded (hub_init rt state0) evs1); [|done].
  intros sub' Hsub'. by apply elem_of_nil in Hsub'.
Qed.

(** A port that connects under the port name of the options is sent, for
    each selector, the view of the state the store has at that moment (for
    a port that connects after a change, the changed state), through the
    serializer of the options; no other port is sent anything then. *)
Lemma late_connect_current_state dispatch selectors opts external rt warnings
    ser k sel state0 evs state :
  wrapStoreSelectors dispatch selectors opts (empty_runtime external)
  = (rt, warnings, Normal ()) →
  with_default noop (serializer opts) = Fn ser →
  selectors !! k = Some sel →
  let hb := (hub_run shallowDiff (hub_init rt state0) (evs ++ [StoreChanged state])).1 in
  let r := hub_step shallowDiff hb (OnConnect false (portName opts)) in
  posted_on (hub_ports hb) k r.2 = [state_message ser k (sel state)]
  ∧ ∀ p k', p ≠ hub_ports hb → posted_on p k' r.2 = [].
Proof.
  intros Hwrap Hser Hsel hb r.
  destruct (wrapStoreSelectors_empty _ _ _ _ _ _ Hwrap)
    as (ser' & de & Hser' & _ & Hrt & _).
  rewrite Hser in Hser'. inversion Hser'; subst ser'. clear Hser'.
  assert (Hhb : hub_runtime hb = rt) by apply hub_run_runtime.
  assert (Hstate : getState (hub_store hb) = state).
  { subst hb. rewrite hub_run_app. done. }
  assert (Hstep : r.2 =
    map (λ entry, Post (hub_ports hb)
                    (state_message ser entry.1 (entry.2 (getState (hub_store hb)))))
        (map_to_list selectors)).
  { subst r. unfold hub_step. rewrite Hhb. unfold connect_listeners.
    rewrite Hrt. cbn [onConnect foldl call_connect fst snd].
    by rewrite connectState_match. }
  rewrite Hstep, Hstate.
  split.
  - destruct (posted_on_states ser (hub_ports hb) state (map_to_list selectors)
                (hub_ports hb) k (NoDup_fst_map_to_list selectors)) as (_ & Hin & _).
    apply Hin. by apply elem_of_map_to_list.
  - intros p k' Hp.
    destruct (posted_on_states ser (hub_ports hb) state (map_to_list selectors)
                p k' (NoDup_fst_map_to_list selectors)) as (Hother & _ & _).
    by apply Hother.
Qed.

End Listeners.

(** ** A request from end to end *)

Section RoundTrip.

Context {State : Type}.
Variable shallowDiff : obj → obj → list patch_op.

Implicit Types (st : @store State) (hb : @hub State) (rt : @runtime State)
  (dispatch : @dispatch_fn State) (selectors : selector_map State)
  (opts : options).

Lemma from_listener_quiet (ls : list (@subscription State)) effects :
  Forall (from_listener ls) effects →
  dispatch_calls effects = [] ∧ uncaught effects = [].
Proof.
  induction 1 as [|e effects He _ IH]; [done|].
  destruct He as (sub & m & -> & _). done.
Qed.

Lemma reply_effects_read (sent : list reply) :
  dispatch_calls (map reply_effect sent) = []
  ∧ uncaught (map reply_effect sent) = []
  ∧ responses (map reply_effect sent) = answers sent.
Proof.
  induction sent as [|[r|args] sent (IH1 & IH2 & IH3)]; [done| |]; cbn.
  - unfold answers, responses in *. cbn. by rewrite IH3.
  - done.
Qed.

Lemma effects_read_app (e1 e2 : list effect) :
  dispatch_calls (e1 ++ e2) = dispatch_calls e1 ++ dispatch_calls e2
  ∧ uncaught (e1 ++ e2) = uncaught e1 ++ uncaught e2
  ∧ responses (e1 ++ e2) = responses e1 ++ responses e2.
Proof. unfold dispatch_calls, uncaught, responses. by rewrite !omap_app. Qed.

(** The message event of a runtime [wrapStoreSelectors] has set up, for a
    request that passes the test: the payload goes through the
    deserializer, then [dispatchResponse] runs. *)
Lemma hub_step_request dispatch selectors opts external rt warnings de
    st ports h request sender :
  wrapStoreSelectors dispatch selectors opts (empty_runtime external)
  = (rt, warnings, Normal ()) →
  with_default noop (deserializer opts) = Fn de →
  shouldDeserialize (portName opts) request = true →
  hub_step shallowDiff (Hub rt st ports) (OnMessage false h request sender) =
  let hp := de (h, req_payload request) in
  let r := dispatchResponse shallowDiff dispatch (portName opts)
             (if arg_falsy (dispatchResponder opts) then Fn promiseResponder
              else dispatchResponder opts)
             st sender hp.1
             (Request (req_type request) (req_portName request) hp.2) in
  (Hub rt r.1.1 ports,
   r.1.2 ++ match r.2 with Throw e => [Uncaught e] | Normal _ => [] end).
Proof.
  intros Hwrap Hde Hyes.
  destruct (wrapStoreSelectors_empty _ _ _ _ _ _ Hwrap)
    as (ser & de' & _ & Hde' & -> & _).
  rewrite Hde in Hde'. inversion Hde'; subst de'. clear Hde'.
  cbn -[dispatchResponse]. unfold deserializeListener. rewrite Hyes.
  destruct (de (h, req_payload request)) as [h0 p]. cbn -[dispatchResponse].
  by destruct (dispatchResponse _ _ _ _ _ _ _ _) as [[st' effects] r].
Qed.

(** With the default responder, a dispatch request for the port name of the
    options is handled so: the payload goes through the deserializer; the
    store's [dispatch] is called exactly once, with a new object that has
    the properties of the deserialized payload and [_sender]; when
    [dispatch] returns, the listener does not throw, the store ends as its
    subscribers left it, and at most one answer is sent: [{error: null,
    value}] for a plain or fulfilled result, [{error: err.message, value:
    null}] for a rejected one whose [message] can be read, none while the
    promise is pending. *)
Lemma dispatch_request_answered dispatch selectors opts external rt warnings de
    st ports h request sender result :
  wrapStoreSelectors dispatch selectors opts (empty_runtime external)
  = (rt, warnings, Normal ()) →
  arg_falsy (dispatchResponder opts) = true →
  with_default noop (deserializer opts) = Fn de →
  shouldDeserialize (portName opts) request = true →
  let hp := de (h, req_payload request) in
  let action := fresh_loc hp.1 in
  let h1 := <[action := Object_assign ∅ [own_props hp.1 hp.2;
                                         {["_sender" := sender]}]]> hp.1 in
  let out := dispatch (getState st) h1 action in
  let r := hub_step shallowDiff (Hub rt st ports) (OnMessage false h request sender) in
  out_result out = Normal result →
  dispatch_calls r.2 = [(h1, action)]
  ∧ uncaught r.2 = []
  ∧ responses r.2 =
    match Promise_resolve result with
    | Fulfilled v => [Envelope VNull v]
    | Rejected err =>
        match get_message (out_heap out) err with
        | Normal m => [Envelope m VNull]
        | Throw _ => []
        end
    | Pending => []
    end
  ∧ hub_store r.1 = (notify_all shallowDiff st (out_notified out)).1.
Proof.
  intros Hwrap Hdefault Hde Hyes hp action h1 out r Hout.
  subst r. rewrite (hub_step_request _ _ _ _ _ _ _ _ _ _ _ _ Hwrap Hde Hyes).
  rewrite Hdefault. fold hp. cbn zeta.
  unfold dispatchResponse. cbn [req_type req_portName req_payload].
  unfold shouldDeserialize in Hyes. rewrite Hyes.
  fold action. fold h1. unfold tryDispatch. fold out.
  destruct (notify_all_channels shallowDiff st (out_notified out)) as [_ Hposted].
  destruct (notify_all shallowDiff st (out_notified out)) as [st' posted].
  cbn [fst snd] in *. rewrite Hout.
  destruct (from_listener_quiet _ _ Hposted) as [Hcalls Huncaught].
  pose proof (responses_from_listener _ _ Hposted) as Hresp.
  destruct (promiseResponder (out_heap out) result) as [sent c] eqn:Hsent.
  assert (c = Normal VUndefined) as -> by (by inversion Hsent).
  destruct (reply_effects_read sent) as (Hc & Hu & Hr).
  cbn [fst snd hub_store]. rewrite app_nil_r.
  repeat (rewrite ?(proj1 (effects_read_app _ _)), ?(proj1 (proj2 (effects_read_app _ _))),
            ?(proj2 (proj2 (effects_read_app _ _)))).
  cbn [app].
  change (dispatch_calls (Dispatched h1 action :: posted))
    with ((h1, action) :: dispatch_calls posted).
  change (uncaught (Dispatched h1 action :: posted)) with (uncaught posted).
  change (responses (Dispatched h1 action :: posted)) with (responses posted).
  rewrite Hcalls, Huncaught, Hresp, Hc, Hu, Hr.
  split; [done|]. split; [done|]. split; [|done].
  unfold promiseResponder in Hsent. inversion Hsent as [Hs]. clear Hsent.
  destruct (Promise_resolve result) as [v|err|]; [done| |done].
  by destruct (get_message (out_heap out) err).
Qed.

(** [wrapStoreSelectors] takes any truthy [dispatchResponder], function or
    not.  With one that is not a function it returns as usual, and then
    every dispatch request for the port name still reaches the store, whose
    [dispatch] is called once, but is never answered: the listener
    throws. *)
Lemma responder_not_checked dispatch selectors opts external v :
  falsy (portName opts) = false →
  is_function (with_default noop (serializer opts)) = true →
  is_function (with_default noop (deserializer opts)) = true →
  dispatchResponder opts = NotFn v →
  falsy v = false →
  ∃ rt warnings,
    wrapStoreSelectors dispatch selectors opts (empty_runtime external)
    = (rt, warnings, Normal ())
    ∧ ∀ st ports h request sender,
        shouldDeserialize (portName opts) request = true →
        let r := hub_step shallowDiff (Hub rt st ports)
                   (OnMessage false h request sender) in
        length (dispatch_calls r.2) = 1%nat
        ∧ responses r.2 = []
        ∧ ∃ e, uncaught r.2 = [e].
Proof.
  intros Hname Hser Hde Hresp Htruthy.
  destruct (with_default noop (serializer opts)) as [ser|] eqn:Eser; [|done].
  destruct (with_default noop (deserializer opts)) as [de|] eqn:Ede; [|done].
  destruct (wrapStoreSelectors dispatch selectors opts (empty_runtime external))
    as [[rt warnings] c] eqn:Hwrap.
  assert (c = Normal ()) as ->.
  { unfold wrapStoreSelectors in Hwrap. rewrite Hname, Eser, Ede in Hwrap.
    by inversion Hwrap. }
  exists rt, warnings. split; [done|].
  intros st ports h request sender Hyes r. subst r.
  rewrite (hub_step_request _ _ _ _ _ _ _ _ _ _ _ _ Hwrap Ede Hyes).
  rewrite Hresp. cbn [arg_falsy]. rewrite Htruthy. cbn zeta.
  destruct (de (h, req_payload request)) as [h0 p]. cbn [fst snd].
  unfold dispatchResponse. cbn [req_type req_portName req_payload].
  unfold shouldDeserialize in Hyes. rewrite Hyes.
  unfold tryDispatch.
  match goal with |- context [notify_all shallowDiff st ?l] =>
    destruct (notify_all_channels shallowDiff st l) as [_ Hposted];
    destruct (notify_all shallowDiff st l) as [st' posted]
  end.
  cbn [fst snd] in Hposted.
  destruct (from_listener_quiet _ _ Hposted) as [Hcalls Huncaught].
  pose proof (responses_from_listener _ _ Hposted) as Hrs.
  pose proof (effects_read_app) as Happ.
  destruct (out_result _) as [result|e]; [|destruct (get_message _ e)];
    cbn [fst snd];
    repeat first
      [ progress rewrite ?(proj1 (Happ _ _)), ?(proj1 (proj2 (Happ _ _))),
                         ?(proj2 (proj2 (Happ _ _)))
      | progress cbn [app]
      | match goal with
        | |- context [dispatch_calls (Dispatched ?h ?a :: ?l)] =>
            change (dispatch_calls (Dispatched h a :: l))
              with ((h, a) :: dispatch_calls l)
        | |- context [uncaught (Dispatched ?h ?a :: ?l)] =>
            change (uncaught (Dispatched h a :: l)) with (uncaught l)
        | |- context [responses (Dispatched ?h ?a :: ?l)] =>
            change (responses (Dispatched h a :: l)) with (responses l)
        end ];
    rewrite ?Hcalls, ?Huncaught, ?Hrs; cbn;
    (split; [done|]); (split; [done|]); by eexists.
Qed.

End RoundTrip.

(** ** The cache and the latest state *)

Section Cache.

Context {State : Type}.
Variable shallowDiff : obj → obj → list patch_op.

Implicit Types (selectors : selector_map State) (prev : gmap string obj)
  (state : State).

Lemma channel_run_latest selectors ser port k sel prev state0 states :
  (∀ a b, shallowDiff a b = [] → a = b) →
  selectors !! k = Some sel →
  prev !! k = Some (sel state0) →
  (channel_run shallowDiff selectors ser port prev states).1 !! k
  = Some (sel (default state0 (last states))).
Proof.
  intros Hempty Hsel. revert prev state0.
  induction states as [|state states IH]; intros prev state0 Hprev; cbn; [done|].
  destruct (patchState_key shallowDiff selectors ser port state prev k sel Hsel)
    as [Hp _].
  assert (Hnext : (patchState shallowDiff selectors ser port state prev).1 !! k
                  = Some (sel state)).
  { rewrite Hp. unfold step_prev, patch_of; cbn [fst snd].
    rewrite (lookup_total_correct _ _ _ Hprev).
    destruct (shallowDiff (sel state0) (sel state)) eqn:Hd.
    - by rewrite Hprev, (Hempty _ _ Hd).
    - apply lookup_insert_eq. }
  rewrite (IH _ state Hnext), last_cons. by destruct (last states).
Qed.

(** When the diff engine gives the empty patch for equal views only, the
    cached view of a channel is, for every registered selector, the view of
    the state the store last called it with (of the state at connection
    before any call); so the patch posted at a call is the diff between the
    views of the previous state and of the new one, and nothing is posted
    when that diff is empty. *)
Lemma patches_between_consecutive_states selectors ser port k sel state0 states state :
  (∀ a b, shallowDiff a b = [] → a = b) →
  selectors !! k = Some sel →
  let before := channel_run shallowDiff selectors ser port
                  (initialStates selectors state0) states in
  let previous := default state0 (last states) in
  let diff := shallowDiff (sel previous) (sel state) in
  before.1 !! k = Some (sel previous)
  ∧ posted_on port k (patchState shallowDiff selectors ser port state before.1).2
    = match diff with [] => [] | _ => [patch_message ser k diff] end.
Proof.
  intros Hempty Hsel before previous diff.
  assert (Hbefore : before.1 !! k = Some (sel previous)).
  { apply channel_run_latest; [done..|].
    by rewrite initialStates_lookup, Hsel. }
  split; [done|].
  destruct (patchState_key shallowDiff selectors ser port state before.1 k sel Hsel)
    as [_ Hposts].
  rewrite Hposts. unfold step_posts, patch_of; cbn [fst snd].
  by rewrite (lookup_total_correct _ _ _ Hbefore).
Qed.

End Cache.

(** The diff engine of the specification gives the empty patch for equal
    views only. *)
Lemma shallowDiff_empty_eq (a b : obj) :
  ShallowDiff.shallowDiff a b = [] → a = b.
Proof.
  intros Hd. apply map_eq. intros k.
  rewrite <- (applyPatch_shallowDiff_lookup a b k), Hd. done.
Qed.

(** ** Channels do not interfere *)

Section Independence.

Context {State : Type}.
Variable shallowDiff : obj → obj → list patch_op.
Variable q : nat.

Implicit Types (st : @store State) (hb : @hub State) (sub : @subscription State)
  (effects : list effect).

Lemma without_port_app effects1 effects2 :
  without_port q (effects1 ++ effects2)
  = without_port q effects1 ++ without_port q effects2.
Proof. apply filter_app. Qed.

Lemma without_port_posts port effects :
  Forall (λ e, ∃ m, e = Post port m) effects →
  without_port q effects = if decide (port = q) then [] else effects.
Proof.
  induction 1 as [|e effects [m ->] _ IH].
  { by destruct (decide _). }
  unfold without_port in *. rewrite filter_cons. cbn [on_port].
  destruct (decide (port = q)) as [->|Hne].
  - rewrite bool_decide_true by done. by rewrite decide_False.
  - rewrite bool_decide_false by done. rewrite decide_True by done. by rewrite IH.
Qed.

Lemma without_port_replies (sent : list reply) :
  without_port q (map reply_effect sent) = map reply_effect sent.
Proof.
  induction sent as [|[r|args] sent IH]; [done|..];
    cbn [map]; unfold without_port in *; rewrite filter_cons;
    cbn [reply_effect on_port]; by rewrite decide_True, IH.
Qed.

Lemma call_listener_posts state sub :
  Forall (λ e, ∃ m, e = Post (sub_port sub) m) (call_listener shallowDiff state sub).2.
Proof.
  unfold call_listener; cbn.
  eapply Forall_impl; [apply patchState_patches|].
  intros e (m & -> & _). by exists m.
Qed.

Lemma notify_unsubscribe st state :
  notify shallowDiff (unsubscribe q st) state =
  (unsubscribe q (notify shallowDiff st state).1,
   without_port q (notify shallowDiff st state).2).
Proof.
  unfold notify, unsubscribe. cbn [getState listeners fst snd].
  induction (listeners st) as [|sub ls IH]; [done|].
  rewrite filter_cons. cbn [map fmap list_fmap concat fst snd].
  inversion IH as [[Hls Heff]].
  rewrite (filter_cons _ (call_listener shallowDiff state sub).1), without_port_app.
  rewrite (without_port_posts _ _ (call_listener_posts state sub)).
  change (sub_port (call_listener shallowDiff state sub).1) with (sub_port sub).
  destruct (decide (sub_port sub ≠ q)) as [Hne|Heq].
  - rewrite decide_False by done. cbn [map fmap list_fmap concat fst snd].
    do 2 f_equal; [by rewrite Hls | by rewrite Heff].
  - rewrite decide_True by (by destruct (decide (sub_port sub = q))).
    cbn [app]. do 2 f_equal; [by rewrite Hls | by rewrite Heff].
Qed.

Lemma notify_all_unsubscribe st states :
  notify_all shallowDiff (unsubscribe q st) states =
  (unsubscribe q (notify_all shallowDiff st states).1,
   without_port q (notify_all shallowDiff st states).2).
Proof.
  unfold notify_all.
  change (@nil effect) with (without_port q []) at 1.
  generalize (@nil effect) as effects. revert st.
  induction states as [|state states IH]; intros st effects; cbn [foldl fst snd]; [done|].
  rewrite notify_unsubscribe. cbn [fst snd]. rewrite <- without_port_app.
  apply IH.
Qed.

Lemma tryDispatch_unsubscribe (dispatch : @dispatch_fn State) st h action :
  tryDispatch shallowDiff dispatch (unsubscribe q st) h action =
  let r := tryDispatch shallowDiff dispatch st h action in
  (unsubscribe q r.1.1, without_port q r.1.2, r.2).
Proof.
  unfold tryDispatch. cbn [unsubscribe getState].
  rewrite notify_all_unsubscribe.
  destruct (notify_all shallowDiff st _) as [st' posted]. cbn [fst snd].
  destruct (out_result _) as [result|e]; [|destruct (get_message _ e)]; cbn [fst snd];
    unfold without_port; rewrite filter_cons; cbn [on_port];
    rewrite decide_True by done; try done.
  rewrite filter_app, filter_cons. cbn [on_port]. by rewrite decide_True.
Qed.

Lemma dispatchResponse_unsubscribe (dispatch : @dispatch_fn State) pn responder
    st sender h request :
  dispatchResponse shallowDiff dispatch pn responder (unsubscribe q st) sender h request =
  let r := dispatchResponse shallowDiff dispatch pn responder st sender h request in
  (unsubscribe q r.1.1, without_port q r.1.2, r.2).
Proof.
  unfold dispatchResponse. destruct (_ && _); [|done].
  rewrite tryDispatch_unsubscribe. cbn zeta.
  destruct (tryDispatch shallowDiff dispatch st _ _) as [[st' effects] [[h2 result]|e]];
    cbn [fst snd]; [|done].
  destruct responder as [respond|v]; [|done].
  destruct (respond h2 result) as [sent r]. cbn [fst snd].
  by rewrite without_port_app, without_port_replies.
Qed.

Lemma call_message_unsubscribe sender h request (l : @message_listener State)
    st effects :
  call_message shallowDiff sender h request
    (unsubscribe q st, without_port q effects) l =
  let r := call_message shallowDiff sender h request (st, effects) l in
  (unsubscribe q r.1, without_port q r.2).
Proof.
  destruct l as [dispatch pn responder de]. unfold call_message.
  unfold deserializeListener. cbn [fst snd].
  assert (Hgen : ∀ h' request',
    (let '(st0, effects0, r) :=
       dispatchResponse shallowDiff dispatch pn responder (unsubscribe q st)
         sender h' request' in
     (st0, without_port q effects ++ effects0 ++
           match r with Throw e => [Uncaught e] | Normal _ => [] end)) =
    (let r0 :=
       (let '(st0, effects0, r) :=
          dispatchResponse shallowDiff dispatch pn responder st sender h' request' in
        (st0, effects ++ effects0 ++
              match r with Throw e => [Uncaught e] | Normal _ => [] end)) in
     (unsubscribe q r0.1, without_port q r0.2))).
  { intros h' request'. rewrite dispatchResponse_unsubscribe. cbn zeta.
    destruct (dispatchResponse shallowDiff dispatch pn responder st sender h' request')
      as [[st0 effects0] r]. cbn [fst snd].
    rewrite !without_port_app. by destruct r. }
  destruct (shouldDeserialize pn request); [|apply Hgen].
  destruct (de (h, req_payload request)) as [h' p]. apply Hgen.
Qed.

Lemma call_messages_unsubscribe sender h request (lsn : list (@message_listener State))
    st effects :
  foldl (call_message shallowDiff sender h request)
        (unsubscribe q st, without_port q effects) lsn =
  let r := foldl (call_message shallowDiff sender h request) (st, effects) lsn in
  (unsubscribe q r.1, without_port q r.2).
Proof.
  revert st effects. induction lsn as [|l lsn IH]; intros st effects; cbn [foldl]; [done|].
  rewrite call_message_unsubscribe. cbn zeta.
  destruct (call_message shallowDiff sender h request (st, effects) l) as [st1 effects1].
  apply IH.
Qed.

Lemma connectState_unsubscribe (selectors : selector_map State) pn ser st port name :
  port ≠ q →
  let r := connectState selectors pn ser st port name in
  connectState selectors pn ser (unsubscribe q st) port name
  = (unsubscribe q r.1, r.2)
  ∧ without_port q r.2 = r.2.
Proof.
  intros Hport. unfold connectState.
  destruct (negb (strict_eq name pn)); cbn [fst snd]; [done|].
  split.
  - unfold unsubscribe, subscribe. cbn [getState listeners].
    rewrite filter_app, filter_cons. cbn [sub_port].
    by rewrite decide_True.
  - rewrite (without_port_posts port); [by rewrite decide_False|].
    apply Forall_fmap, Forall_forall. intros entry _. by eexists.
Qed.

Lemma call_connects_unsubscribe port name (lsn : list (@connect_listener State))
    st effects :
  port ≠ q →
  foldl (call_connect port name) (unsubscribe q st, without_port q effects) lsn =
  let r := foldl (call_connect port name) (st, effects) lsn in
  (unsubscribe q r.1, without_port q r.2).
Proof.
  intros Hport. revert st effects.
  induction lsn as [|l lsn IH]; intros st effects; cbn [foldl]; [done|].
  destruct l as [selectors pn ser]. cbn [call_connect fst snd].
  destruct (connectState_unsubscribe selectors pn ser st port name Hport) as [-> Hsame].
  cbn [fst snd]. rewrite <- Hsame at 1. rewrite <- without_port_app.
  apply IH.
Qed.

Lemma unsubscribe_comm p st :
  unsubscribe p (unsubscribe q st) = unsubscribe q (unsubscribe p st).
Proof.
  unfold unsubscribe. cbn [getState listeners]. f_equal.
  rewrite !list_filter_filter. apply list_filter_iff. tauto.
Qed.

Lemma hub_step_disconnected hb ev :
  q < hub_ports hb →
  hub_step shallowDiff (hub_step shallowDiff hb (OnDisconnect q)).1 ev =
  let r := hub_step shallowDiff hb ev in
  ((hub_step shallowDiff r.1 (OnDisconnect q)).1, without_port q r.2).
Proof.
  intros Hq. destruct ev as [external name|p|external h request sender|state];
    cbn [hub_step hub_runtime hub_store hub_ports fst snd].
  - assert (Hne : hub_ports hb ≠ q) by lia.
    pose proof (call_connects_unsubscribe (hub_ports hb) name
                  (connect_listeners (hub_runtime hb) external)
                  (hub_store hb) [] Hne) as Heq.
    change (without_port q []) with (@nil effect) in Heq. rewrite Heq.
    cbn zeta. by destruct (foldl _ _ _).
  - by rewrite unsubscribe_comm.
  - pose proof (call_messages_unsubscribe sender h request
                  (message_listeners (hub_runtime hb) external)
                  (hub_store hb) []) as Heq.
    change (without_port q []) with (@nil effect) in Heq. rewrite Heq.
    cbn zeta. by destruct (foldl _ _ _).
  - by rewrite notify_unsubscribe.
Qed.

Lemma hub_step_ports_mono hb ev :
  (hub_ports hb ≤ hub_ports (hub_step shallowDiff hb ev).1)%nat.
Proof. destruct ev; cbn; lia. Qed.

(** Disconnecting a port changes nothing for the others: whatever events
    follow, the background page does exactly what it would have done had the
    port stayed connected, except that it posts nothing on that port; and
    its store ends with the same state and the same subscribers, that of
    the port apart. *)
Lemma disconnect_only_silences hb evs :
  q < hub_ports hb →
  hub_run shallowDiff (hub_step shallowDiff hb (OnDisconnect q)).1 evs =
  let r := hub_run shallowDiff hb evs in
  ((hub_step shallowDiff r.1 (OnDisconnect q)).1, without_port q r.2).
Proof.
  revert hb. induction evs as [|ev evs IH]; intros hb Hq; cbn [hub_run]; [done|].
  rewrite hub_step_disconnected by done. cbn zeta. cbn [fst snd].
  rewrite IH.
  - cbn zeta. cbn [fst snd]. by rewrite without_port_app.
  - pose proof (hub_step_ports_mono hb ev). lia.
Qed.

End Independence.

(** ** The history of a subscriber *)

Section History.

Context {State : Type}.
Variable shallowDiff : obj → obj → list patch_op.

Implicit Types (st : @store State) (hb : @hub State) (sub : @subscription State)
  (states trace : list State).

Lemma called_at_app states1 states2 sub :
  called_at shallowDiff (states1 ++ states2) sub
  = called_at shallowDiff states2 (called_at shallowDiff states1 sub).
Proof. unfold called_at. apply foldl_app. Qed.

Lemma notify_called st state :
  getState (notify shallowDiff st state).1 = state
  ∧ listeners (notify shallowDiff st state).1
    = map (called_at shallowDiff [state]) (listeners st).
Proof.
  unfold notify. cbn [fst getState listeners]. split; [done|].
  induction (listeners st) as [|sub ls IH]; [done|].
  cbn. f_equal. exact IH.
Qed.

Lemma notify_all_called st states :
  listeners (notify_all shallowDiff st states).1
  = map (called_at shallowDiff states) (listeners st).
Proof.
  unfold notify_all. generalize (@nil effect) as effects. revert st.
  induction states as [|state states IH]; intros st effects; cbn [foldl fst snd].
  { cbn. induction (listeners st) as [|sub ls IHls]; [done|]. cbn. by f_equal. }
  rewrite IH. destruct (notify_called st state) as [_ ->].
  rewrite map_map. apply map_ext. intros sub.
  by rewrite (called_at_app [state] states).
Qed.

Lemma cached_since_called p state0 trace states sub :
  cached_since shallowDiff p state0 trace sub →
  cached_since shallowDiff p state0 (trace ++ states)
    (called_at shallowDiff states sub).
Proof.
  intros Hsub Hp.
  destruct (called_at_channel shallowDiff states sub) as (Hport & Hser & Hsel & Hprev).
  rewrite Hport in Hp. rewrite Hser, Hsel, Hprev, channel_run_app.
  rewrite (Hsub Hp), Hp. done.
Qed.

Lemma cached_since_notify_all p state0 trace st states :
  Forall (cached_since shallowDiff p state0 trace) (listeners st) →
  Forall (cached_since shallowDiff p state0 (trace ++ states))
         (listeners (notify_all shallowDiff st states).1).
Proof.
  intros Hls. rewrite notify_all_called. apply Forall_forall.
  intros sub' Hin. apply list_elem_of_In, in_map_iff in Hin as (sub & <- & Hin).
  apply cached_since_called.
  apply (proj1 (Forall_forall _ _) Hls). by apply list_elem_of_In.
Qed.

Lemma tryDispatch_store (dispatch : @dispatch_fn State) st h action :
  (tryDispatch shallowDiff dispatch st h action).1.1
  = (notify_all shallowDiff st (out_notified (dispatch (getState st) h action))).1.
Proof.
  unfold tryDispatch. destruct (notify_all _ _ _) as [st' posted].
  destruct (out_result _) as [result|e]; [done|]. by destruct (get_message _ e).
Qed.

Lemma call_message_store sender h request st effects (l : @message_listener State) :
  (call_message shallowDiff sender h request (st, effects) l).1
  = (notify_all shallowDiff st (listener_notified sender h request st l)).1.
Proof.
  destruct l as [dispatch pn responder de].
  unfold call_message, listener_notified, deserializeListener. cbn [fst snd].
  assert (Hno : ∀ h' request',
    shouldDeserialize pn request' = false →
    (let '(st0, effects0, r) :=
       dispatchResponse shallowDiff dispatch pn responder st sender h' request' in
     (st0, effects ++ effects0 ++
           match r with Throw e => [Uncaught e] | Normal _ => [] end)).1 = st).
  { intros h' request' Hf. unfold dispatchResponse.
    unfold shouldDeserialize in Hf. by rewrite Hf. }
  destruct (shouldDeserialize pn request) eqn:Hyes; [|by rewrite Hno].
  destruct (de (h, req_payload request)) as [h' p].
  unfold dispatchResponse. cbn [req_type req_portName req_payload].
  unfold shouldDeserialize in Hyes. rewrite Hyes.
  rewrite <- tryDispatch_store.
  destruct (tryDispatch _ _ _ _ _) as [[st' effects'] [[h2 result]|e]];
    cbn [fst snd]; [|done].
  destruct responder as [respond|v]; [|done].
  by destruct (respond h2 result).
Qed.

Lemma cached_since_messages p state0 sender h request
    (ls : list (@message_listener State)) trace st effects :
  Forall (cached_since shallowDiff p state0 trace) (listeners st) →
  Forall (cached_since shallowDiff p state0
            (trace ++ messages_notified shallowDiff sender h request st ls))
         (listeners (foldl (call_message shallowDiff sender h request)
                       (st, effects) ls).1).
Proof.
  revert trace st effects.
  induction ls as [|l ls IH]; intros trace st effects Hls;
    cbn [foldl messages_notified].
  { by rewrite app_nil_r. }
  destruct (call_message shallowDiff sender h request (st, effects) l)
    as [st1 effects1] eqn:Hcall.
  assert (Hst1 : st1 = (call_message shallowDiff sender h request (st, []) l).1).
  { rewrite call_message_store.
    rewrite <- (call_message_store sender h request st effects l). by rewrite Hcall. }
  rewrite <- Hst1, app_assoc. apply IH.
  rewrite Hst1, call_message_store. by apply cached_since_notify_all.
Qed.

Lemma call_connects_new port name (lsn : list (@connect_listener State)) st effects :
  let r := foldl (call_connect port name) (st, effects) lsn in
  getState r.1 = getState st
  ∧ ∀ sub, sub ∈ listeners r.1 →
      sub ∈ listeners st
      ∨ (sub_port sub = port
         ∧ sub_prevStates sub = initialStates (sub_selectors sub) (getState st)).
Proof.
  revert st effects. induction lsn as [|l lsn IH]; intros st effects; cbn [foldl].
  { split; [done|]. by left. }
  destruct l as [selectors pn ser]. cbn [call_connect fst snd].
  unfold connectState.
  destruct (negb (strict_eq name pn)); cbn [fst snd]; [apply IH|].
  match goal with |- context [foldl _ (?st1, ?e1) lsn] =>
    destruct (IH st1 e1) as [Hstate Hsubs]
  end.
  cbn [subscribe getState listeners] in Hstate, Hsubs.
  split; [done|]. intros sub Hsub.
  destruct (Hsubs sub Hsub) as [Hold|Hnew]; [|by right].
  apply elem_of_app in Hold as [Hold|Hnew]; [by left|].
  apply list_elem_of_singleton in Hnew as ->. by right.
Qed.

Lemma hub_step_cached_since p state0 trace hb ev :
  p < hub_ports hb →
  Forall (cached_since shallowDiff p state0 trace) (listeners (hub_store hb)) →
  p < hub_ports (hub_step shallowDiff hb ev).1
  ∧ Forall (cached_since shallowDiff p state0
              (trace ++ step_notified shallowDiff hb ev))
           (listeners (hub_store (hub_step shallowDiff hb ev).1)).
Proof.
  intros Hp Hls.
  destruct ev as [external name|q|external h request sender|state];
    cbn [hub_step step_notified fst hub_store hub_ports]; rewrite ?app_nil_r.
  - split; [lia|]. apply Forall_forall. intros sub Hsub.
    destruct (call_connects_new (hub_ports hb) name
                (connect_listeners (hub_runtime hb) external) (hub_store hb) [])
      as [_ Hsubs].
    destruct (Hsubs sub Hsub) as [Hold|[Hnew _]].
    + by apply (proj1 (Forall_forall _ _) Hls).
    + intros Hport. lia.
  - split; [done|]. apply Forall_forall. intros sub Hsub.
    apply list_elem_of_filter in Hsub as [_ Hsub].
    by apply (proj1 (Forall_forall _ _) Hls).
  - split; [done|]. by apply cached_since_messages.
  - split; [done|].
    change (notify shallowDiff (hub_store hb) state).1
      with (notify_all shallowDiff (hub_store hb) [state]).1.
    by apply cached_since_notify_all.
Qed.

Lemma hub_run_cached_since p state0 trace hb evs :
  p < hub_ports hb →
  Forall (cached_since shallowDiff p state0 trace) (listeners (hub_store hb)) →
  Forall (cached_since shallowDiff p state0
            (trace ++ hub_notified shallowDiff hb evs))
         (listeners (hub_store (hub_run shallowDiff hb evs).1)).
Proof.
  revert trace hb. induction evs as [|ev evs IH]; intros trace hb Hp Hls;
    cbn [hub_run hub_notified fst].
  { by rewrite app_nil_r. }
  destruct (hub_step_cached_since p state0 trace hb ev Hp Hls) as [Hp' Hls'].
  rewrite app_assoc. by apply IH.
Qed.

(** Take any events, then the connection of a port, then any events.  A
    subscriber of the store that posts on that port has as its cached
    views those of the closure [patchState] made at the connection: the
    views of the state the store had then, updated by [patchState] at each
    state the store has called its subscribers with since, in order, and at
    no other. *)
Lemma subscribers_are_channels rt (state0 : State) evs1 external name evs2 :
  let hb1 := (hub_run shallowDiff (hub_init rt state0) evs1).1 in
  let hb2 := (hub_step shallowDiff hb1 (OnConnect external name)).1 in
  Forall (cached_since shallowDiff (hub_ports hb1) (getState (hub_store hb1))
            (hub_notified shallowDiff hb2 evs2))
         (listeners (hub_store
            (hub_run shallowDiff (hub_init rt state0)
               (evs1 ++ OnConnect external name :: evs2)).1)).
Proof.
  intros hb1 hb2.
  rewrite hub_run_app. cbn [fst hub_run]. fold hb1. fold hb2.
  apply (hub_run_cached_since (hub_ports hb1) (getState (hub_store hb1)) [] hb2 evs2).
  { subst hb2. cbn. lia. }
  apply Forall_forall. intros sub Hsub Hport.
  subst hb2. cbn [hub_step fst hub_store] in Hsub.
  destruct (call_connects_new (hub_ports hb1) name
              (connect_listeners (hub_runtime hb1) external) (hub_store hb1) [])
    as [_ Hsubs].
  destruct (Hsubs sub Hsub) as [Hold|[_ Hnew]]; [|by rewrite Hnew].
  assert (sub_port sub < hub_ports hb1); [|lia].
  apply (hub_run_ports_bounded shallowDiff (hub_init rt state0) evs1); [|done].
  intros sub' Hsub'. by apply elem_of_nil in Hsub'.
Qed.

End History.

(** ** The edge cases at work *)

(** A dispatch request for [OTHER_APP] reaches the listener of [MY_APP]:
    nothing happens. *)
Lemma foreign_message_ignored_witness :
  wrapStoreSelectors Scenario.dispatch Scenario.selectors Scenario.opts
    (empty_runtime true) = (Scenario.rt, [], Normal ())
  ∧ shouldDeserialize (VStr "MY_APP") Edge.request_other = false
  ∧ hub_step ShallowDiff.shallowDiff (Hub Scenario.rt (Store Scenario.state0 []) 0)
      (OnMessage false Scenario.objects Edge.request_other Scenario.sender)
    = (Hub Scenario.rt (Store Scenario.state0 []) 0, []).
Proof.
  split; [reflexivity|]. split; [reflexivity|].
  exact (foreign_message_ignored ShallowDiff.shallowDiff Scenario.dispatch
           Scenario.selectors Scenario.opts true Scenario.rt []
           (Store Scenario.state0 []) 0 false Scenario.objects Edge.request_other
           Scenario.sender eq_refl eq_refl).
Defined.

(** On a runtime with the external events, an external connection is
    handled as an internal one. *)
Lemma external_events_witness :
  wrapStoreSelectors Scenario.dispatch Scenario.selectors Scenario.opts
    (empty_runtime true) = (Scenario.rt, [], Normal ())
  ∧ hub_step ShallowDiff.shallowDiff Scenario.page (OnConnect true (VStr "MY_APP"))
    = hub_step ShallowDiff.shallowDiff Scenario.page (OnConnect false (VStr "MY_APP")).
Proof.
  split; [reflexivity|].
  exact (proj1 (proj2 (external_events ShallowDiff.shallowDiff Scenario.dispatch
                         Scenario.selectors Scenario.opts true Scenario.rt []
                         (Store Scenario.state0 []) 0 (VStr "MY_APP")
                         Scenario.objects Scenario.request_x Scenario.sender
                         eq_refl))).
Defined.

(** Port 0 connects as [MY_APP], port 1 as [OTHER_APP]: the change to
    [{a:1,b:3}] posts nothing on port 1. *)
Lemma foreign_port_silent_witness :
  wrapStoreSelectors Scenario.dispatch Scenario.selectors Scenario.opts
    (empty_runtime true) = (Scenario.rt, [], Normal ())
  ∧ VStr "OTHER_APP" ≠ VStr "MY_APP"
  ∧ ∀ m, Post 1 m ∉
      (hub_run ShallowDiff.shallowDiff
         (hub_step ShallowDiff.shallowDiff
            (hub_run ShallowDiff.shallowDiff (hub_init Scenario.rt Scenario.state0)
               [OnConnect false (VStr "MY_APP")]).1
            (OnConnect false (VStr "OTHER_APP"))).1
         [StoreChanged Scenario.state1]).2.
Proof.
  split; [reflexivity|]. split; [discriminate|].
  exact (proj2 (proj2 (foreign_port_silent ShallowDiff.shallowDiff Scenario.dispatch
                         Scenario.selectors Scenario.opts true Scenario.rt []
                         Scenario.state0 [OnConnect false (VStr "MY_APP")]
                         false (VStr "OTHER_APP") [StoreChanged Scenario.state1]
                         eq_refl ltac:(discriminate)))).
Defined.

(** A port that connects after the change to [{a:1,b:3}] is sent [{b:3}]
    for [s2]. *)
Lemma late_connect_current_state_witness :
  wrapStoreSelectors Scenario.dispatch Scenario.selectors Scenario.opts
    (empty_runtime true) = (Scenario.rt, [], Normal ())
  ∧ with_default noop (serializer Scenario.opts) = Fn noop
  ∧ Scenario.selectors !! "s2" = Some Scenario.s2
  ∧ posted_on 0 "s2"
      (hub_step ShallowDiff.shallowDiff
         (hub_run ShallowDiff.shallowDiff (hub_init Scenario.rt Scenario.state0)
            ([] ++ [StoreChanged Scenario.state1])).1
         (OnConnect false (VStr "MY_APP"))).2
    = [state_message noop "s2" (Scenario.s2 Scenario.state1)].
Proof.
  split; [reflexivity|]. split; [reflexivity|]. split; [reflexivity|].
  exact (proj1 (late_connect_current_state ShallowDiff.shallowDiff Scenario.dispatch
                  Scenario.selectors Scenario.opts true Scenario.rt [] noop "s2"
                  Scenario.s2 Scenario.state0 [] Scenario.state1
                  eq_refl eq_refl eq_refl)).
Defined.

(** The request [{type: DISPATCH, portName: 'MY_APP', payload: {type:
    'X'}}]: the store returns the action, and the answer carries it. *)
Lemma dispatch_request_answered_witness :
  wrapStoreSelectors Scenario.dispatch Scenario.selectors Scenario.opts
    (empty_runtime true) = (Scenario.rt, [], Normal ())
  ∧ arg_falsy (dispatchResponder Scenario.opts) = true
  ∧ with_default noop (deserializer Scenario.opts) = Fn noop
  ∧ shouldDeserialize (portName Scenario.opts) Scenario.request_x = true
  ∧ uncaught
      (hub_step ShallowDiff.shallowDiff Scenario.page
         (OnMessage false Scenario.objects Scenario.request_x Scenario.sender)).2 = []
  ∧ responses
      (hub_step ShallowDiff.shallowDiff Scenario.page
         (OnMessage false Scenario.objects Scenario.request_x Scenario.sender)).2
    = [Envelope VNull (VRef (fresh_loc Scenario.objects))].
Proof.
  split; [reflexivity|]. split; [reflexivity|]. split; [reflexivity|].
  split; [reflexivity|].
  destruct (dispatch_request_answered ShallowDiff.shallowDiff Scenario.dispatch
              Scenario.selectors Scenario.opts true Scenario.rt [] noop
              (Store Scenario.state0 []) 0 Scenario.objects Scenario.request_x
              Scenario.sender (Plain (VRef (fresh_loc Scenario.objects)))
              eq_refl eq_refl eq_refl eq_refl eq_refl)
    as (_ & Huncaught & Hresponses & _).
  split; [exact Huncaught | exact Hresponses].
Defined.

(** With [dispatchResponder: 1] the store is wrapped, and no request is
    answered. *)
Lemma responder_not_checked_witness :
  falsy (portName Edge.opts_bad_responder) = false
  ∧ is_function (with_default noop (serializer Edge.opts_bad_responder)) = true
  ∧ is_function (with_default noop (deserializer Edge.opts_bad_responder)) = true
  ∧ dispatchResponder Edge.opts_bad_responder = NotFn (VNum 1)
  ∧ falsy (VNum 1) = false
  ∧ ∃ rt warnings,
      wrapStoreSelectors Scenario.dispatch Scenario.selectors Edge.opts_bad_responder
        (empty_runtime true) = (rt, warnings, Normal ())
      ∧ ∀ st ports h request sender,
          shouldDeserialize (VStr "MY_APP") request = true →
          responses
            (hub_step ShallowDiff.shallowDiff (Hub rt st ports)
               (OnMessage false h request sender)).2 = [].
Proof.
  split; [reflexivity|]. split; [reflexivity|]. split; [reflexivity|].
  split; [reflexivity|]. split; [reflexivity|].
  destruct (responder_not_checked ShallowDiff.shallowDiff Scenario.dispatch
              Scenario.selectors Edge.opts_bad_responder true (VNum 1)
              eq_refl eq_refl eq_refl eq_refl eq_refl)
    as (rt & warnings & Hwrap & Hrequests).
  exists rt, warnings. split; [exact Hwrap|].
  intros st ports h request sender Hyes.
  exact (proj1 (proj2 (Hrequests st ports h request sender Hyes))).
Defined.

(** With the diff engine of the specification: after the change to
    [{a:1,b:3}] the cached view of [s2] is [{b:3}]. *)
Lemma patches_between_consecutive_states_witness :
  (∀ a b, ShallowDiff.shallowDiff a b = [] → a = b)
  ∧ Scenario.selectors !! "s2" = Some Scenario.s2
  ∧ (channel_run ShallowDiff.shallowDiff Scenario.selectors noop 0
       (initialStates Scenario.selectors Scenario.state0) [Scenario.state1]).1 !! "s2"
    = Some (Scenario.s2 Scenario.state1).
Proof.
  split; [exact shallowDiff_empty_eq|]. split; [reflexivity|].
  exact (proj1 (patches_between_consecutive_states ShallowDiff.shallowDiff
                  Scenario.selectors noop 0 "s2" Scenario.s2 Scenario.state0
                  [Scenario.state1] Scenario.state1 shallowDiff_empty_eq eq_refl)).
Defined.

(** Two ports are connected and port 0 disconnects: the change to
    [{a:1,b:3}] is posted as before, the messages on port 0 apart. *)
Lemma disconnect_only_silences_witness :
  (0 < hub_ports Edge.two_ports)%nat
  ∧ (hub_run ShallowDiff.shallowDiff
       (hub_step ShallowDiff.shallowDiff Edge.two_ports (OnDisconnect 0)).1
       [StoreChanged Scenario.state1]).2
    = without_port 0
        (hub_run ShallowDiff.shallowDiff Edge.two_ports
           [StoreChanged Scenario.state1]).2.
Proof.
  split; [cbn; lia|].
  exact (f_equal snd
           (disconnect_only_silences ShallowDiff.shallowDiff 0 Edge.two_ports
              [StoreChanged Scenario.state1] ltac:(cbn; lia))).
Defined.
